(** * Step recorder and playback controller of the sorting visualizer

    Shallow embedding of
    - [src/lib/algorithms/sortingAlgorithms.ts]: [bubbleSort] and
      [quickSort], with the local closures [partition] and
      [quickSortHelper];
    - [src/components/visualizations/SortingVisualizer.tsx]: the state of
      the React component, its event handlers, its effects and the view it
      derives from the current step.

    Array elements are integers ([Z]), as [generateRandomArray] produces
    them.  Indices are integers as well: the source computes [low - 1],
    [pivotIndex - 1] and [array.length - 1], each of which can be [-1]. *)

From Stdlib Require Import ZArith Lia Bool Sorted Permutation.
From stdpp Require Import base list.
From Equations Require Import Equations.

Open Scope Z_scope.

(** * Part I: the program *)

(** ** JavaScript arrays of numbers *)

Module JsArray.

(** [a.length] *)
Definition len (a : list Z) : Z := Z.of_nat (length a).

(** [a[i]] for an integer [i].  Out of range JavaScript yields [undefined];
    the recorders never read out of range (every index they use is one a
    pushed frame names, see [frame_indices_ok]), so the default is never
    observed. *)
Definition get (a : list Z) (i : Z) : Z :=
  if (0 <=? i) && (i <? len a) then nth (Z.to_nat i) a 0 else 0.

(** [a[i] = v] for an integer [i] in range.  Out of range JavaScript would
    extend the array; the recorders never write out of range. *)
Definition set (a : list Z) (i : Z) (v : Z) : list Z :=
  if (0 <=? i) && (i <? len a) then <[Z.to_nat i := v]> a else a.

(** [[a[i], a[j]] = [a[j], a[i]]]: the right-hand side is evaluated first,
    then the two assignments are made from left to right. *)
Definition swap (a : list Z) (i j : Z) : list Z :=
  let tmp0 := get a j in
  let tmp1 := get a i in
  set (set a i tmp0) j tmp1.

End JsArray.

Import JsArray.

(** ** The step recorder *)

(** [type SortStep] *)
Record SortStep : Type := mkStep {
  array : list Z;
  comparing : option (Z * Z);
  swapping : option (Z * Z)
}.

(** What a recorder does to the two mutable objects it owns, the working
    copy of its input and the [steps] array.  The recorders are written once
    over these operations; [Recorder] below interprets them on values,
    [Heap.HeapRecorder] on a heap of array objects. *)
Class Recording (S : Type) : Type := {
  (** the current contents of the working copy, for [arr[j]] *)
  working : S -> list Z;
  (** [steps.push({ array: [...arr], comparing, swapping })] *)
  push : option (Z * Z) -> option (Z * Z) -> S -> S;
  (** [[arr[i], arr[j]] = [arr[j], arr[i]]] *)
  exchange : Z -> Z -> S -> S
}.

(** [for (let j = lo; j < hi; j++) body], for a body that assigns neither
    [j] nor the bound. *)
Fixpoint for_loop {S : Type} (count : nat) (j : Z) (body : Z -> S -> S) (s : S) : S :=
  match count with
  | O => s
  | Datatypes.S c => for_loop c (j + 1) body (body j s)
  end.

Definition for_range {S : Type} (lo hi : Z) (body : Z -> S -> S) (s : S) : S :=
  for_loop (Z.to_nat (hi - lo)) lo body s.

(** Body of the inner loop of [bubbleSort]. *)
Definition bubble_body {S : Type} `{Recording S} (j : Z) (s : S) : S :=
  let s := push (Some (j, j + 1)) None s in
  if get (working s) j >? get (working s) (j + 1) then
    let s := push None (Some (j, j + 1)) s in
    let s := exchange j (j + 1) s in
    push None None s
  else s.

(** One pass: the inner loop for a given [i]. *)
Definition bubble_pass {S : Type} `{Recording S} (n i : Z) (s : S) : S :=
  for_range 0 (n - i - 1) bubble_body s.

(** The two nested loops of [bubbleSort], and their first [i] passes. *)
Definition bubble_passes {S : Type} `{Recording S} (n i : Z) (s : S) : S :=
  for_range 0 i (bubble_pass n) s.

Definition bubble_loops {S : Type} `{Recording S} (n : Z) (s : S) : S :=
  bubble_passes n (n - 1) s.

(** Body of the loop of [partition]; the loop state is the local [i] and the
    recorder. *)
Definition partition_body {S : Type} `{Recording S} (high pivot : Z) (j : Z) (st : Z * S)
  : Z * S :=
  let '(i, s) := st in
  let s := push (Some (j, high)) None s in
  if get (working s) j <=? pivot then
    let i := i + 1 in
    let s := push None (Some (i, j)) s in
    let s := exchange i j s in
    let s := push None None s in
    (i, s)
  else (i, s).

Definition partition {S : Type} `{Recording S} (low high : Z) (s : S) : Z * S :=
  let pivot := get (working s) high in
  let i := low - 1 in
  let '(i, s) := for_range low high (partition_body high pivot) (i, s) in
  let s := push None (Some (i + 1, high)) s in
  let s := exchange (i + 1) high s in
  let s := push None None s in
  (i + 1, s).

(** Loop rule: an invariant indexed by the loop variable. *)
Lemma for_loop_inv {S : Type} (Inv : Z -> S -> Prop) (body : Z -> S -> S) :
  forall count lo s,
    Inv lo s ->
    (forall j t, lo <= j < lo + Z.of_nat count -> Inv j t -> Inv (j + 1) (body j t)) ->
    Inv (lo + Z.of_nat count) (for_loop count lo body s).
Proof.
  induction count as [|c IH]; intros lo s H0 Hstep; simpl for_loop.
  - replace (lo + Z.of_nat 0) with lo by lia. exact H0.
  - replace (lo + Z.of_nat (Datatypes.S c)) with ((lo + 1) + Z.of_nat c) by lia.
    apply IH.
    + apply Hstep; [lia | exact H0].
    + intros j t Hj. apply Hstep. lia.
Qed.

Lemma for_range_inv {S : Type} (Inv : Z -> S -> Prop) (body : Z -> S -> S) lo hi s :
  lo <= hi ->
  Inv lo s ->
  (forall j t, lo <= j < hi -> Inv j t -> Inv (j + 1) (body j t)) ->
  Inv hi (for_range lo hi body s).
Proof.
  intros Hle H0 Hstep. unfold for_range.
  replace hi with (lo + Z.of_nat (Z.to_nat (hi - lo))) at 1 by lia.
  apply for_loop_inv; [exact H0|].
  intros j t Hj. apply Hstep. lia.
Qed.

Lemma for_range_empty {S : Type} (body : Z -> S -> S) lo hi s :
  hi <= lo -> for_range lo hi body s = s.
Proof.
  intros H. unfold for_range. replace (Z.to_nat (hi - lo)) with O by lia. reflexivity.
Qed.

(** The index returned by [partition] lies in the range it was given; the
    recursion of [quickSortHelper] rests on this. *)
Lemma partition_index_range {S : Type} `{Recording S} low high (s : S) :
  low <= high -> low <= fst (partition low high s) <= high.
Proof.
  intros Hle. unfold partition.
  pose proof (for_range_inv
    (fun j (st : Z * S) => low - 1 <= fst st < j)
    (partition_body high (get (working s) high)) low high (low - 1, s) Hle) as Hinv.
  destruct (for_range low high _ _) as [i s'].
  simpl in *.
  assert (low - 1 <= i < high); [|lia].
  apply Hinv; [lia|].
  intros j [i0 t] Hj Hi. simpl in *. unfold partition_body.
  destruct (_ <=? _); simpl; lia.
Qed.

(** [quickSortHelper]: the recursion is on the width of [[low, high]]. *)
Equations? quickSortHelper {S : Type} `{Recording S} (low high : Z) (s : S) : S
  by wf (Z.to_nat (high - low + 1)) lt :=
quickSortHelper low high s with Z_lt_dec low high := {
  | left _ with Equations.Prop.Logic.inspect (partition low high s) := {
      | exist _ (pivotIndex, s1) Hpart =>
          let s2 := quickSortHelper low (pivotIndex - 1) s1 in
          quickSortHelper (pivotIndex + 1) high s2 }
  | right _ => s }.
Proof.
  all: pose proof (partition_index_range low high s) as Hp;
    rewrite Hpart in Hp; simpl in Hp; lia.
Qed.

(** *** The recorder on values *)

(** The working copy and the steps pushed so far. *)
Record Recorder : Type := mkRec {
  arr : list Z;
  steps : list SortStep
}.

#[global] Instance Recorder_recording : Recording Recorder := {
  working s := arr s;
  push c w s := mkRec (arr s) (steps s ++ [mkStep (arr s) c w]);
  exchange i j s := mkRec (swap (arr s) i j) (steps s)
}.

(** [const array = [...inputArray]; const steps = []], then the loops. *)
Definition bubble_run (inputArray : list Z) : Recorder :=
  let working_copy := inputArray in
  let n := len working_copy in
  bubble_loops n (mkRec working_copy []).

Definition bubbleSort (inputArray : list Z) : list SortStep :=
  steps (bubble_run inputArray).

Definition quick_run (inputArray : list Z) : Recorder :=
  let working_copy := inputArray in
  quickSortHelper 0 (len working_copy - 1) (mkRec working_copy []).

Definition quickSort (inputArray : list Z) : list SortStep :=
  steps (quick_run inputArray).

(** *** The recorder on a heap of array objects *)

(** The same recorders, run where JavaScript runs them: arrays are objects
    on a heap, [[...a]] allocates a copy, the swap mutates the working copy
    in place, and a step holds a reference to the copy made for it. *)
Module Heap.

(** A reference is a position in the heap. *)
Abbreviation loc := nat.

(** The array objects allocated so far. *)
Abbreviation heap := (list (list Z)).

Definition read (h : heap) (l : loc) : list Z := default [] (h !! l).

Definition write (h : heap) (l : loc) (a : list Z) : heap := <[l := a]> h.

(** [[...a]]: a fresh object with the contents of [a]. *)
Definition alloc (h : heap) (a : list Z) : loc * heap := (length h, h ++ [a]).

(** A step whose [array] is a reference. *)
Record RefStep : Type := mkRefStep {
  array_ref : loc;
  ref_comparing : option (Z * Z);
  ref_swapping : option (Z * Z)
}.

(** The heap, the reference of the working copy, and the steps pushed. *)
Record HeapRecorder : Type := mkHeapRec {
  store : heap;
  arr_ref : loc;
  pushed : list RefStep
}.

#[export] Instance HeapRecorder_recording : Recording HeapRecorder := {
  working s := read (store s) (arr_ref s);
  push c w s :=
    let '(l, h) := alloc (store s) (read (store s) (arr_ref s)) in
    mkHeapRec h (arr_ref s) (pushed s ++ [mkRefStep l c w]);
  exchange i j s :=
    mkHeapRec (write (store s) (arr_ref s) (swap (read (store s) (arr_ref s)) i j))
              (arr_ref s) (pushed s)
}.

(** [bubbleSort(inputArray)] on the heap [h]: the steps and the heap it
    leaves. *)
Definition bubbleSort (h : heap) (inputArray : loc) : list RefStep * heap :=
  let '(a, h) := alloc h (read h inputArray) in
  let n := len (read h a) in
  let s := bubble_loops n (mkHeapRec h a []) in
  (pushed s, store s).

Definition quickSort (h : heap) (inputArray : loc) : list RefStep * heap :=
  let '(a, h) := alloc h (read h inputArray) in
  let s := quickSortHelper 0 (len (read h a) - 1) (mkHeapRec h a []) in
  (pushed s, store s).

(** What a step shows when its array is read in the heap [h]. *)
Definition snapshot (h : heap) (st : RefStep) : SortStep :=
  mkStep (read h (array_ref st)) (ref_comparing st) (ref_swapping st).

End Heap.

(** ** The playback controller: the [SortingVisualizer] component *)

Module SortingVisualizer.

(** The fields of a step, under names the component's own [array] does
    not hide. *)
Definition step_array (st : SortStep) : list Z := array st.
Definition step_comparing (st : SortStep) : option (Z * Z) := comparing st.
Definition step_swapping (st : SortStep) : option (Z * Z) := swapping st.

(** [type AlgorithmType = 'bubble' | 'quick'] *)
Inductive AlgorithmType : Type := bubble | quick.

Definition AlgorithmType_eqb (a b : AlgorithmType) : bool :=
  match a, b with
  | bubble, bubble | quick, quick => true
  | _, _ => false
  end.

(** The seven [useState] cells. *)
Record State : Type := mkState {
  array : list Z;
  sortSteps : list SortStep;
  currentStep : Z;
  algorithm : AlgorithmType;
  speed : Z;
  isPlaying : bool;
  arraySize : Z
}.

(** The component between two renders: its state, whether the [setTimeout]
    of the animation effect is pending, and which of the two other effects
    have a dependency that changed in the last batch of updates
    ([array, algorithm] for the second effect, [arraySize] for the
    third). *)
Record Component : Type := mkComponent {
  state : State;
  timeout : bool;
  stepsStale : bool;
  resetStale : bool
}.

(** [sortSteps.length] *)
Definition length_of (steps : list SortStep) : Z := Z.of_nat (length steps).

(** *** The state setters *)

Definition update := Component -> Component.

Definition with_state (f : State -> State) (c : Component) : Component :=
  mkComponent (f (state c)) (timeout c) (stepsStale c) (resetStale c).

(** [setArray(a)]: the array is a fresh object, so the dependency
    [array] of the second effect always changes. *)
Definition setArray (a : list Z) : update := fun c =>
  let s := state c in
  mkComponent
    (mkState a (sortSteps s) (currentStep s) (algorithm s) (speed s) (isPlaying s) (arraySize s))
    (timeout c) true (resetStale c).

Definition setSortSteps (steps : list SortStep) : update :=
  with_state (fun s =>
    mkState (array s) steps (currentStep s) (algorithm s) (speed s) (isPlaying s) (arraySize s)).

(** [setCurrentStep(prev => f(prev))] *)
Definition setCurrentStep (f : Z -> Z) : update :=
  with_state (fun s =>
    mkState (array s) (sortSteps s) (f (currentStep s)) (algorithm s) (speed s) (isPlaying s) (arraySize s)).

Definition setAlgorithm (a : AlgorithmType) : update := fun c =>
  let s := state c in
  mkComponent
    (mkState (array s) (sortSteps s) (currentStep s) a (speed s) (isPlaying s) (arraySize s))
    (timeout c)
    (stepsStale c || negb (AlgorithmType_eqb a (algorithm s)))
    (resetStale c).

Definition setSpeed (v : Z) : update :=
  with_state (fun s =>
    mkState (array s) (sortSteps s) (currentStep s) (algorithm s) v (isPlaying s) (arraySize s)).

Definition setIsPlaying (b : bool) : update :=
  with_state (fun s =>
    mkState (array s) (sortSteps s) (currentStep s) (algorithm s) (speed s) b (arraySize s)).

Definition setArraySize (n : Z) : update := fun c =>
  let s := state c in
  mkComponent
    (mkState (array s) (sortSteps s) (currentStep s) (algorithm s) (speed s) (isPlaying s) n)
    (timeout c) (stepsStale c)
    (resetStale c || negb (n =? arraySize s)).

(** *** Handlers *)

(** [generateRandomArray(size, max)] draws from [Math.random]; [newArray]
    is a possible result. *)
Definition generateRandomArray (size max : Z) (newArray : list Z) : Prop :=
  length newArray = Z.to_nat size /\ Forall (fun v => 1 <= v <= max) newArray.

(** [resetArray], given the array that [generateRandomArray(arraySize, 100)]
    returns.  [animationRef.current] is never assigned, so the
    [cancelAnimationFrame] branch is dead. *)
Definition resetArray (newArray : list Z) : update := fun c =>
  let c := setIsPlaying false c in
  let c := setArray newArray c in
  let c := setSortSteps [] c in
  setCurrentStep (fun _ => -1) c.

(** [startSort]; [currentStep] and [sortSteps] are those of the render the
    handler was created in. *)
Definition startSort (s : State) : update := fun c =>
  let c := if length_of (sortSteps s) - 1 <=? currentStep s
           then setCurrentStep (fun _ => -1) c else c in
  setIsPlaying true c.

Definition pauseSort : update := setIsPlaying false.

(** The callback of the [setTimeout]: the timer has fired. *)
Definition tick : update := fun c =>
  let c := mkComponent (state c) false (stepsStale c) (resetStale c) in
  setCurrentStep (fun prev => prev + 1) c.

(** [onClick] of the Previous Step and Next Step buttons. *)
Definition previousStep : update :=
  setCurrentStep (fun prev => Z.max 0 (prev - 1)).

Definition nextStep (s : State) : update :=
  setCurrentStep (fun prev => Z.min (length_of (sortSteps s) - 1) (prev + 1)).

(** What can happen to a rendered component. *)
Inductive Event : Type :=
| ClickGenerate (newArray : list Z)
| SelectAlgorithm (a : AlgorithmType)
| SlideSize (n : Z)
| SlideSpeed (v : Z)
| ClickPlay
| ClickPause
| ClickPrevious
| ClickNext
| TimerFires.

(** The [disabled] attributes of the buttons, the ranges of the sliders,
    and the timer that must be pending to fire. *)
Definition enabled (e : Event) (c : Component) : Prop :=
  let s := state c in
  match e with
  | ClickGenerate newArray => generateRandomArray (arraySize s) 100 newArray
  | SelectAlgorithm _ => True
  | SlideSize n => 5 <= n <= 100
  | SlideSpeed v => 1 <= v <= 100
  | ClickPlay => isPlaying s = false
  | ClickPause => isPlaying s = true
  | ClickPrevious => ~ currentStep s <= 0
  | ClickNext => ~ length_of (sortSteps s) - 1 <= currentStep s
  | TimerFires => timeout c = true
  end.

Definition handle (e : Event) (c : Component) : Component :=
  let s := state c in
  match e with
  | ClickGenerate newArray => resetArray newArray c
  | SelectAlgorithm a => setAlgorithm a c
  | SlideSize n => setArraySize n c
  | SlideSpeed v => setSpeed v c
  | ClickPlay => startSort s c
  | ClickPause => pauseSort c
  | ClickPrevious => previousStep c
  | ClickNext => nextStep s c
  | TimerFires => tick c
  end.

(** *** Effects *)

(** The animation effect, on the state [s] of the render it runs after:
    the updates it enqueues, and whether it leaves a timer pending (its
    cleanup has cleared the previous one).  It reads its dependencies
    only, so it is run after every render: with unchanged dependencies it
    would only restart the delay of the timer. *)
Definition animation_effect (s : State) : update * bool :=
  if negb (isPlaying s) || (length_of (sortSteps s) - 1 <=? currentStep s) then
    ((if isPlaying s && (length_of (sortSteps s) - 1 <=? currentStep s)
      then setIsPlaying false else (fun c => c)),
     false)
  else ((fun c => c), true).

(** The effect on [array, algorithm]. *)
Definition steps_effect (s : State) : update :=
  if len (array s) =? 0 then (fun c => c)
  else
    let steps := match algorithm s with
                 | bubble => bubbleSort (array s)
                 | quick => quickSort (array s)
                 end in
    fun c => setCurrentStep (fun _ => -1) (setSortSteps steps c).

(** The effect on [arraySize] (on the memoised [resetArray] in the second
    variant of the component). *)
Definition reset_effect (newArray : list Z) : update := resetArray newArray.

(** The effects that run after a render, in the order of their
    declaration; the updates they enqueue are applied in that order to
    give the next state.  [newArray] is what [generateRandomArray] returns
    should the third effect run. *)
Definition flush (newArray : list Z) (c : Component) : Component :=
  let s := state c in
  let '(u1, pending) := animation_effect s in
  let u2 := if stepsStale c then steps_effect s else (fun c => c) in
  let u3 := if resetStale c then reset_effect newArray else (fun c => c) in
  u3 (u2 (u1 (mkComponent s pending false false))).

(** No effect has anything left to do. *)
Definition settled (c : Component) : Prop :=
  let s := state c in
  stepsStale c = false /\ resetStale c = false /\
  snd (animation_effect s) = timeout c /\
  (isPlaying s && (length_of (sortSteps s) - 1 <=? currentStep s)) = false.

(** *** The component as a transition system *)

(** The first render. *)
Definition mount : Component :=
  mkComponent (mkState [] [] (-1) bubble 50 false 30) false true true.

(** The component when every event and every timer callback is handled
    after the effects of the last render have run. *)
Inductive step : Component -> Component -> Prop :=
| step_event e c :
    settled c -> enabled e c -> step c (handle e c)
| step_flush newArray c :
    ~ settled c ->
    generateRandomArray (arraySize (state c)) 100 newArray ->
    step c (flush newArray c).

Inductive reachable : Component -> Prop :=
| reachable_mount : reachable mount
| reachable_step c c' : reachable c -> step c c' -> reachable c'.

(** A pending timer is cleared by the cleanup of the animation effect only:
    [resetArray] tests [animationRef.current], which is never assigned.  So
    the callback of a pending timer can run after a render and before the
    effects of that render, or between two rounds of effects: a stale
    tick. *)
Inductive step_racing : Component -> Component -> Prop :=
| racing_in_order c c' :
    step c c' -> step_racing c c'
| racing_stale_tick c :
    timeout c = true -> step_racing c (handle TimerFires c).

Inductive reachable_racing : Component -> Prop :=
| racing_mount : reachable_racing mount
| racing_step c c' : reachable_racing c -> step_racing c c' -> reachable_racing c'.

(** *** The current view *)

(** A value, or the [TypeError] of reading a property of [undefined]. *)
Inductive outcome (A : Type) : Type :=
| Value (a : A)
| TypeError.
Arguments Value {A} a.
Arguments TypeError {A}.

(** [sortSteps[currentStep].field] under the guard of the source. *)
Definition current_or {A : Type} (field : SortStep -> A) (fallback : A) (s : State)
  : outcome A :=
  if (0 <=? currentStep s) && (currentStep s <? length_of (sortSteps s)) then
    match sortSteps s !! Z.to_nat (currentStep s) with
    | Some st => Value (field st)
    | None => TypeError
    end
  else Value fallback.

Definition currentArray (s : State) : outcome (list Z) :=
  current_or step_array (array s) s.

Definition currentComparing (s : State) : outcome (option (Z * Z)) :=
  current_or step_comparing None s.

Definition currentSwapping (s : State) : outcome (option (Z * Z)) :=
  current_or step_swapping None s.

Inductive BarColor : Type := bg_red_500 | bg_yellow_400 | bg_blue_500.

(** [getBarColor(index)], given the two highlights of the render. *)
Definition getBarColor_of (currentSwapping currentComparing : option (Z * Z)) (index : Z)
  : BarColor :=
  match currentSwapping with
  | Some (a, b) =>
      if (index =? a) || (index =? b) then bg_red_500
      else match currentComparing with
           | Some (a, b) => if (index =? a) || (index =? b) then bg_yellow_400 else bg_blue_500
           | None => bg_blue_500
           end
  | None =>
      match currentComparing with
      | Some (a, b) => if (index =? a) || (index =? b) then bg_yellow_400 else bg_blue_500
      | None => bg_blue_500
      end
  end.

(** [getBarColor(index)] in the render of the state [s]. *)
Definition getBarColor (s : State) (index : Z) : outcome BarColor :=
  match currentSwapping s, currentComparing s with
  | Value sw, Value cmp => Value (getBarColor_of sw cmp index)
  | _, _ => TypeError
  end.

End SortingVisualizer.

(** ** The tutorial text of the second variant of the component *)

(** [getStepExplanation] of the variant of the component with a tutorial
    mode.  That variant has the same state, handlers and effects as
    [SortingVisualizer]; the text is a function of [currentStep],
    [sortSteps] and [algorithm]. *)
Module Tutorial.

(** [a[k]], or [None] for [undefined]. *)
Definition element (a : list Z) (k : Z) : option Z :=
  if (0 <=? k) && (k <? len a) then a !! Z.to_nat k else None.

(** The sentence [getStepExplanation] returns, with the values it
    interpolates; an [undefined] value is [None].
    - [NoExplanation]: the empty string;
    - [BubbleComparing p q x y]: "Comparing elements at positions p and q,
      with values x and y.";
    - [BubbleSwapping p x q y]: "The element at position p (x) is greater
      than the element at position q (y), so we swap them.";
    - [BubbleNext]: "Moving to the next comparison.";
    - [QuickComparing x y]: "Comparing element x with pivot y.";
    - [QuickSwapping x y]: "Swapping elements x and y to maintain
      partition.";
    - [QuickRecursing]: "Recursively processing partitions." *)
Inductive Explanation : Type :=
| NoExplanation
| BubbleComparing (p q : Z) (x y : option Z)
| BubbleSwapping (p : Z) (x : option Z) (q : Z) (y : option Z)
| BubbleNext
| QuickComparing (x y : option Z)
| QuickSwapping (x y : option Z)
| QuickRecursing.

Definition getStepExplanation (s : SortingVisualizer.State) : Explanation :=
  let currentStep := SortingVisualizer.currentStep s in
  let sortSteps := SortingVisualizer.sortSteps s in
  if currentStep <? 0 then NoExplanation
  else
    match sortSteps !! Z.to_nat currentStep with
    | None => NoExplanation
    | Some step =>
        match SortingVisualizer.algorithm s with
        | SortingVisualizer.bubble =>
            match comparing step, swapping step with
            | Some (p, q), _ =>
                BubbleComparing p q (element (array step) p) (element (array step) q)
            | None, Some (p, q) =>
                BubbleSwapping p (element (array step) p) q (element (array step) q)
            | None, None => BubbleNext
            end
        | SortingVisualizer.quick =>
            match comparing step, swapping step with
            | Some (p, q), _ =>
                QuickComparing (element (array step) p) (element (array step) q)
            | None, Some (p, q) =>
                QuickSwapping (element (array step) p) (element (array step) q)
            | None, None => QuickRecursing
            end
        end
    end.

(** No interpolated value is [undefined]. *)
Definition all_defined (e : Explanation) : Prop :=
  match e with
  | BubbleComparing _ _ x y | BubbleSwapping _ x _ y
  | QuickComparing x y | QuickSwapping x y => is_Some x /\ is_Some y
  | NoExplanation | BubbleNext | QuickRecursing => True
  end.

(** What the sentence of a bubble sort swap asserts. *)
Definition greater_as_said (e : Explanation) : Prop :=
  match e with
  | BubbleSwapping _ (Some x) _ (Some y) => y < x
  | _ => True
  end.

End Tutorial.

(** * Part II: the vocabulary of the properties *)

(** ** The shape of a recorded trace *)

(** What a recorder may push while its working copy goes from [a] to [b]:
    a comparison frame of the current array, or a swap frame of the current
    array followed by the frame of the array after the exchange.  [R]
    restricts the pairs that are compared or swapped. *)
Inductive trace_from (R : Z -> Z -> Prop) : list Z -> list SortStep -> list Z -> Prop :=
| trace_done a :
    trace_from R a [] a
| trace_compare a j k tr b :
    0 <= j -> j < k -> k < len a -> R j k ->
    trace_from R a tr b ->
    trace_from R a (mkStep a (Some (j, k)) None :: tr) b
| trace_swap a i j tr b :
    0 <= i < len a -> 0 <= j < len a -> R i j ->
    trace_from R (swap a i j) tr b ->
    trace_from R a (mkStep a None (Some (i, j)) :: mkStep (swap a i j) None None :: tr) b.

(** [t] is reached from [s] by pushing such a trace. *)
Definition records (R : Z -> Z -> Prop) (s t : Recorder) : Prop :=
  exists tr, steps t = steps s ++ tr /\ trace_from R (arr s) tr (arr t).

(** Pairs compared or swapped by [bubbleSort], and by [quickSort]. *)
Definition adjacent (i j : Z) : Prop := j = i + 1.

Definition ordered (i j : Z) : Prop := i <= j.

(** Pairs compared or swapped while [partition] and [quickSortHelper] work on
    [[low, high]]. *)
Definition between (low high : Z) (i j : Z) : Prop := low <= i /\ i <= j /\ j <= high.

(** The highlight fields of one frame: a compared pair is two positions of
    the array, the first before the second; a swapped pair is two positions
    related by [R]. *)
Definition frame_indices_ok (R : Z -> Z -> Prop) (n : Z) (st : SortStep) : Prop :=
  (forall p q, comparing st = Some (p, q) ->
     0 <= p < n /\ 0 <= q < n /\ p < q /\ R p q) /\
  (forall p q, swapping st = Some (p, q) -> 0 <= p < n /\ 0 <= q < n /\ R p q).

Definition not_both (st : SortStep) : Prop :=
  comparing st = None \/ swapping st = None.

(** The entry of [a] at the integer position [k], if there is one. *)
Definition entry (a : list Z) (k : Z) : option Z :=
  if k <? 0 then None else a !! Z.to_nat k.

(** [b] is [a] with the entries at the positions [p] and [q] exchanged: both
    positions hold an entry, [b] has at [p] what [a] has at [q] and at [q]
    what [a] has at [p], and every other position and the length are as in
    [a]. *)
Definition exchanged_at (a b : list Z) (p q : Z) : Prop :=
  is_Some (entry a p) /\ is_Some (entry a q) /\
  length b = length a /\
  entry b p = entry a q /\
  entry b q = entry a p /\
  forall k, k <> p -> k <> q -> entry b k = entry a k.

(** The list [a] with the entries at [p] and [q] exchanged, entry by
    entry. *)
Definition exchanged (a : list Z) (p q : Z) : list Z :=
  imap (fun i v =>
          if Z.of_nat i =? p then default v (entry a q)
          else if Z.of_nat i =? q then default v (entry a p)
          else v) a.

(** A swap frame at position [k] is followed by the frame of the array with
    the two entries exchanged. *)
Definition swap_then_result (tr : list SortStep) : Prop :=
  forall (k : nat) st p q,
    tr !! k = Some st -> swapping st = Some (p, q) ->
    exists st', tr !! Datatypes.S k = Some st' /\
      comparing st' = None /\ swapping st' = None /\
      exchanged_at (array st) (array st') p q.

(** Both highlight fields, when set, name two different positions. *)
Definition distinct_pairs (st : SortStep) : Prop :=
  (forall p q, comparing st = Some (p, q) -> p <> q) /\
  (forall p q, swapping st = Some (p, q) -> p <> q).

(** ** Sortedness *)

(** [a] is ascending on the positions [lo..hi]. *)
Definition ascending_on (a : list Z) (lo hi : Z) : Prop :=
  forall p q, lo <= p -> p <= q -> q <= hi -> get a p <= get a q.

(** After [i] passes every position among the last [i] holds a value that
    is at least every value before it. *)
Definition settled_tail (n i : Z) (a : list Z) : Prop :=
  len a = n /\
  forall p q, 0 <= p -> p <= q -> q < n -> n - i <= q -> get a p <= get a q.

(** Inside a pass, position [j] holds the largest value of [0..j]. *)
Definition bubbled_to (j : Z) (a : list Z) : Prop :=
  forall p, 0 <= p -> p <= j -> get a p <= get a j.

(** [b] differs from [a] only inside [low..high], and what holds of every
    value there still holds. *)
Definition within (low high : Z) (a b : list Z) : Prop :=
  len b = len a /\
  (forall k, k < low \/ high < k -> get b k = get a k) /\
  (forall P : Z -> Prop,
     (forall k, low <= k <= high -> P (get a k)) ->
     forall k, low <= k <= high -> P (get b k)).

(** Invariant of the loop of [partition]: values up to [i] are at most the
    pivot, values after [i] and before [j] are larger, and the pivot is
    still in place. *)
Definition partitioned (low high pivot n : Z) (j : Z) (st : Z * Recorder) : Prop :=
  let '(i, t) := st in
  low - 1 <= i < j /\ len (arr t) = n /\ get (arr t) high = pivot /\
  (forall k, low <= k -> k <= i -> get (arr t) k <= pivot) /\
  (forall k, i < k -> k < j -> pivot < get (arr t) k).

(** The ascending sort the specification speaks of, by insertion. *)
Fixpoint insert_ascending (x : Z) (l : list Z) : list Z :=
  match l with
  | [] => [x]
  | y :: l' => if x <=? y then x :: l else y :: insert_ascending x l'
  end.

Definition ascending_sort (l : list Z) : list Z :=
  fold_right insert_ascending [] l.

(** ** Counting frames *)

Definition is_comparing (st : SortStep) : bool :=
  match comparing st with Some _ => true | None => false end.

Definition is_swapping (st : SortStep) : bool :=
  match swapping st with Some _ => true | None => false end.

Definition count_frames (f : SortStep -> bool) (tr : list SortStep) : Z :=
  Z.of_nat (length (List.filter f tr)).

Definition step_count (tr : list SortStep) : Z := Z.of_nat (length tr).

(** The three counters of a recorder: frames, comparison frames, swap
    frames. *)
Definition frames_since (s t : Recorder) : Z * Z * Z :=
  (step_count (steps t) - step_count (steps s),
   count_frames is_comparing (steps t) - count_frames is_comparing (steps s),
   count_frames is_swapping (steps t) - count_frames is_swapping (steps s)).

(** [m] comparisons, some of which found an inverted pair. *)
Definition tally (m : Z) (c : Z * Z * Z) : Prop :=
  let '(total, cmp, swp) := c in
  cmp = m /\ 0 <= swp <= m /\ total = cmp + 2 * swp.

(** ** The passes of bubble sort *)

(** The recorder after the first [i] iterations of the outer loop. *)
Definition after_passes (A : list Z) (i : Z) : Recorder :=
  bubble_passes (len A) i (mkRec A []).

(** The frames pushed by pass number [k], counted from 1: the iteration
    [i = k - 1] of the outer loop. *)
Definition pass_frames (A : list Z) (k : Z) : list SortStep :=
  drop (length (steps (after_passes A (k - 1)))) (steps (after_passes A k)).

Definition frame_on (p q : Z) (st : SortStep) : Prop :=
  comparing st = Some (p, q) \/ swapping st = Some (p, q).

(** The scenario of C6 as it is worded: after the first three steps, a
    second pass that works on the positions (1,2). *)
Definition scenario_as_stated : Prop :=
  bubbleSort [5; 3; 1] !! 0%nat = Some (mkStep [5; 3; 1] (Some (0, 1)) None) /\
  bubbleSort [5; 3; 1] !! 1%nat = Some (mkStep [5; 3; 1] None (Some (0, 1))) /\
  bubbleSort [5; 3; 1] !! 2%nat = Some (mkStep [3; 5; 1] None None) /\
  (exists st, In st (pass_frames [5; 3; 1] 2) /\ frame_on 1 2 st) /\
  (exists st, last (bubbleSort [5; 3; 1]) = Some st /\ array st = [1; 3; 5]).


(** ** Two interpretations of the recorder *)

(** The loop state of [partition] under a relation [sim] between two
    recorders: the same [i], related recorders. *)
Definition sim_indexed {S1 S2 : Type} (sim : S1 -> S2 -> Prop) (x : Z * S1) (y : Z * S2)
  : Prop :=
  fst x = fst y /\ sim (snd x) (snd y).

(** The steps of a heap run, read in the heap [h]. *)
Definition replay (h : Heap.heap) (tr : list Heap.RefStep) : list SortStep :=
  map (Heap.snapshot h) tr.

(** The heap recorder [t] stands for the value recorder [s]: its working
    copy is an object allocated after the heap [h0] the run started from, it
    holds the working array, every step refers to a live object other than
    the working copy that holds the array of the step, and no object of
    [h0] was written. *)
Definition represents (h0 : Heap.heap) (s : Recorder) (t : Heap.HeapRecorder) : Prop :=
  (length h0 <= Heap.arr_ref t < length (Heap.store t))%nat /\
  Heap.read (Heap.store t) (Heap.arr_ref t) = arr s /\
  replay (Heap.store t) (Heap.pushed t) = steps s /\
  Forall (fun st => (Heap.array_ref st < length (Heap.store t))%nat /\
                   Heap.array_ref st <> Heap.arr_ref t)
         (Heap.pushed t) /\
  (forall l, (l < length h0)%nat -> Heap.store t !! l = h0 !! l).

(** What a run on the heap returns and leaves behind. *)
Definition heap_run_ok (h : Heap.heap) (expected : list SortStep) (r : list Heap.RefStep * Heap.heap) : Prop :=
  let '(tr, h') := r in
  replay h' tr = expected /\
  Forall (fun st => (Heap.array_ref st < length h')%nat) tr /\
  (length h <= length h')%nat /\
  (forall l, (l < length h)%nat -> h' !! l = h !! l).

(** Running [recorder] on the input object, then again on the same object
    in the heap the first run left: the input still holds [A], both runs
    show the sequence [f A], and the second run leaves the steps of the
    first as they were. *)
Definition runs_identically
    (recorder : Heap.heap -> Heap.loc -> list Heap.RefStep * Heap.heap)
    (f : list Z -> list SortStep)
    (h : Heap.heap) (inputArray : Heap.loc) (A : list Z) : Prop :=
  let '(tr1, h1) := recorder h inputArray in
  let '(tr2, h2) := recorder h1 inputArray in
  h1 !! inputArray = Some A /\ h2 !! inputArray = Some A /\
  replay h1 tr1 = replay h2 tr2 /\
  replay h1 tr1 = f A /\ replay h2 tr2 = f A /\
  replay h2 tr1 = replay h1 tr1.

(** ** The controller *)

Section ControllerVocabulary.

Import SortingVisualizer.

(** [-1 <= currentStep <= sortSteps.length - 1] *)
Definition index_in_bounds (c : Component) : Prop :=
  -1 <= currentStep (state c) <= length_of (sortSteps (state c)) - 1.

(** [isPlaying] is false whenever [currentStep = sortSteps.length - 1]. *)
Definition stopped_at_end (c : Component) : Prop :=
  currentStep (state c) = length_of (sortSteps (state c)) - 1 ->
  isPlaying (state c) = false.

(** An event with its handler, or one round of effects. *)
Inductive action : Type :=
| Do (e : Event)
| Effects (newArray : list Z).

Definition perform (a : action) (c : Component) : Component :=
  match a with
  | Do e => handle e c
  | Effects newArray => flush newArray c
  end.

Definition settledb (c : Component) : bool :=
  let s := state c in
  negb (stepsStale c) && negb (resetStale c) &&
  Bool.eqb (snd (animation_effect s)) (timeout c) &&
  negb (isPlaying s && (length_of (sortSteps s) - 1 <=? currentStep s)).

Definition random_arrayb (size max : Z) (newArray : list Z) : bool :=
  Nat.eqb (length newArray) (Z.to_nat size) &&
  forallb (fun v => (1 <=? v) && (v <=? max)) newArray.

Definition enabledb (e : Event) (c : Component) : bool :=
  let s := state c in
  match e with
  | ClickGenerate newArray => random_arrayb (arraySize s) 100 newArray
  | SelectAlgorithm _ => true
  | SlideSize n => (5 <=? n) && (n <=? 100)
  | SlideSpeed v => (1 <=? v) && (v <=? 100)
  | ClickPlay => negb (isPlaying s)
  | ClickPause => isPlaying s
  | ClickPrevious => negb (currentStep s <=? 0)
  | ClickNext => negb (length_of (sortSteps s) - 1 <=? currentStep s)
  | TimerFires => timeout c
  end.

Definition allowedb (a : action) (c : Component) : bool :=
  match a with
  | Do e => settledb c && enabledb e c
  | Effects newArray =>
      negb (settledb c) && random_arrayb (arraySize (state c)) 100 newArray
  end.

Fixpoint run (script : list action) (c : Component) : option Component :=
  match script with
  | [] => Some c
  | a :: rest => if allowedb a c then run rest (perform a c) else None
  end.




(** Mount; take the size slider to 5 and get [[1; 2; 3; 4; 5]]; play; take
    the size slider to 6 while the timer is pending and let the reset effect
    run. *)
Definition resize_while_playing : list action :=
  [ Effects (List.repeat 1 30); Effects (List.repeat 1 30);
    Do (SlideSize 5); Effects [1; 2; 3; 4; 5]; Effects [1; 2; 3; 4; 5];
    Do ClickPlay; Effects [1; 2; 3; 4; 5];
    Do (SlideSize 6); Effects [1; 2; 3; 4; 5; 6] ].

End ControllerVocabulary.

(** ** Replaying a sequence from its highlights *)

(** The array after a step with the given [swapping] field. *)
Definition apply_swapping (w : option (Z * Z)) (a : list Z) : list Z :=
  match w with
  | Some (p, q) => exchanged a p q
  | None => a
  end.

(** The arrays a renderer shows when it starts from [a] and exchanges the two
    entries each swap step names. *)
Fixpoint arrays_from (a : list Z) (ws : list (option (Z * Z))) : list (list Z) :=
  match ws with
  | [] => []
  | w :: ws' => a :: arrays_from (apply_swapping w a) ws'
  end.

(** ** The comparisons of bubble sort and what follows them *)

(** The frames of bubble sort, comparison by comparison: a pair in order
    leaves one frame, an inverted pair three and the exchanged array. *)
Inductive bubble_trace : list Z -> list SortStep -> list Z -> Prop :=
| bubble_done a :
    bubble_trace a [] a
| bubble_keep a j tr b :
    get a j <= get a (j + 1) ->
    bubble_trace a tr b ->
    bubble_trace a (mkStep a (Some (j, j + 1)) None :: tr) b
| bubble_exchange a j tr b :
    get a (j + 1) < get a j ->
    bubble_trace (swap a j (j + 1)) tr b ->
    bubble_trace a (mkStep a (Some (j, j + 1)) None ::
                    mkStep a None (Some (j, j + 1)) ::
                    mkStep (swap a j (j + 1)) None None :: tr) b.

Definition bubble_records (s t : Recorder) : Prop :=
  exists tr, steps t = steps s ++ tr /\ bubble_trace (arr s) tr (arr t).

(** What each kind of frame of a bubble sort sits next to. *)
Definition swaps_are_justified (tr : list SortStep) : Prop :=
  forall (k : nat) st p q,
    tr !! k = Some st -> swapping st = Some (p, q) ->
    get (array st) q < get (array st) p /\
    exists k', k = Datatypes.S k' /\
               tr !! k' = Some (mkStep (array st) (Some (p, q)) None).

Definition comparisons_are_acted_on (tr : list SortStep) : Prop :=
  forall (k : nat) st p q,
    tr !! k = Some st -> comparing st = Some (p, q) ->
    if get (array st) p >? get (array st) q
    then tr !! Datatypes.S k = Some (mkStep (array st) None (Some (p, q)))
    else forall st', tr !! Datatypes.S k = Some st' -> swapping st' = None.

(** ** Counting the frames of quick sort *)

(** A call of [quickSortHelper] on a range of [m] positions makes at most
    [m(m-1)/2] comparisons and at most [m - 1] swaps more than
    comparisons. *)
Definition quick_tally (m : Z) (c : Z * Z * Z) : Prop :=
  let '(total, cmp, swp) := c in
  0 <= cmp /\ 2 * cmp <= m * (m - 1) /\
  0 <= swp <= cmp + Z.max 0 (m - 1) /\ total = cmp + 2 * swp.

(** ** The copies the steps refer to *)

(** The steps pushed so far refer to pairwise different objects, all
    allocated after the working copy, which was the first object allocated
    after the heap [h0] the run started from. *)
Definition owns_fresh_copies (h0 : Heap.heap) (t : Heap.HeapRecorder) : Prop :=
  NoDup (map Heap.array_ref (Heap.pushed t)) /\
  Forall (fun st => (length h0 < Heap.array_ref st)%nat) (Heap.pushed t).

Definition represents_owning (h0 : Heap.heap) (s : Recorder) (t : Heap.HeapRecorder) : Prop :=
  represents h0 s t /\ owns_fresh_copies h0 t.

(** The steps a run returns: one object each, none of which existed before
    the call, all alive in the heap the call leaves. *)
Definition steps_own_their_arrays
    (h : Heap.heap) (r : list Heap.RefStep * Heap.heap) : Prop :=
  let '(tr, h') := r in
  NoDup (map Heap.array_ref tr) /\
  Forall (fun st => h !! Heap.array_ref st = None /\ is_Some (h' !! Heap.array_ref st)) tr.

(** ** The states of the component *)

Section ComponentVocabulary.

Import SortingVisualizer.

(** The recorder the steps effect calls for an algorithm. *)
Definition recorder_of (a : AlgorithmType) : list Z -> list SortStep :=
  match a with
  | bubble => bubbleSort
  | quick => quickSort
  end.

(** The steps in the state were recorded from the array in the state: by the
    selected algorithm once the steps effect has run, by some algorithm or
    not yet before. *)
Definition steps_belong (c : Component) : Prop :=
  let s := state c in
  (sortSteps s = [] \/ exists a, sortSteps s = recorder_of a (array s)) /\
  (array s = [] -> sortSteps s = []) /\
  (stepsStale c = false -> array s <> [] ->
   sortSteps s = recorder_of (algorithm s) (array s)).

(** The size is one the slider can give, and the array is one
    [generateRandomArray(arraySize, 100)] can return once the reset effect
    has run. *)
Definition array_fits_size (c : Component) : Prop :=
  let s := state c in
  5 <= arraySize s <= 100 /\
  (resetStale c = false -> generateRandomArray (arraySize s) 100 (array s)).

(** [k] firings of the timer, each followed by a round of effects. *)
Fixpoint ticks (k : nat) (r : list Z) : list action :=
  match k with
  | O => []
  | Datatypes.S k' => Do TimerFires :: Effects r :: ticks k' r
  end.

(** The state [s] at another step, playing or not. *)
Definition at_step (s : State) (i : Z) (playing : bool) : State :=
  mkState (array s) (sortSteps s) i (algorithm s) (speed s) playing (arraySize s).

(** The index at which a click on Play starts. *)
Definition play_start (s : State) : Z :=
  if length_of (sortSteps s) - 1 <=? currentStep s then -1 else currentStep s.

(** The settled component that shows a fresh array: not playing, no timer,
    before the first step of the steps of the selected algorithm. *)
Definition fresh_component (s : State) (newArray : list Z) (size : Z) : Component :=
  mkComponent
    (mkState newArray (recorder_of (algorithm s) newArray) (-1) (algorithm s) (speed s)
             false size)
    false false false.

(** The component after the steps effect has run for another algorithm:
    the same array, the steps of the new algorithm, before the first step,
    and still playing if it was. *)
Definition switched_component (c : Component) (a : AlgorithmType) : Component :=
  let s := state c in
  mkComponent
    (mkState (array s) (recorder_of a (array s)) (-1) a (speed s) (isPlaying s) (arraySize s))
    (isPlaying s) false false.

(** A component that shows step [i] of the bubble sort of [[5; 3; 1; 4; 2]],
    paused. *)
Definition shown (i : Z) : Component :=
  mkComponent
    (mkState [5; 3; 1; 4; 2] (bubbleSort [5; 3; 1; 4; 2]) i bubble 50 false 5)
    false false false.

(** Mount, take the size slider to 5, get [[5; 3; 1; 4; 2]], and step
    forward [i] times. *)
Definition show_script (i : nat) : list action :=
  [ Effects (List.repeat 1 30); Effects (List.repeat 1 30);
    Do (SlideSize 5); Effects [5; 3; 1; 4; 2]; Effects [5; 3; 1; 4; 2] ] ++
  List.repeat (Do ClickNext) i.

End ComponentVocabulary.

(** * Part III: properties of the program *)

(** ** Facts about array reads and writes *)

Section ArrayFacts.

Implicit Types (a : list Z) (i j k v : Z).

Lemma len_nonneg a : 0 <= len a.
Proof. unfold len. lia. Qed.

Lemma get_lookup a i :
  0 <= i < len a -> a !! Z.to_nat i = Some (get a i).
Proof.
  intros Hi. unfold get, len in *.
  replace ((0 <=? i) && (i <? Z.of_nat (length a))) with true
    by (symmetry; apply andb_true_iff; lia).
  destruct (nth_lookup_or_length a (Z.to_nat i) 0) as [H|H]; [exact H | lia].
Qed.

Lemma len_set a i v : len (set a i v) = len a.
Proof.
  unfold set, len. destruct (_ && _); [|reflexivity].
  now rewrite length_insert.
Qed.

Lemma len_swap a i j : len (swap a i j) = len a.
Proof. unfold swap. now rewrite !len_set. Qed.

Lemma get_set a i k v :
  0 <= i < len a ->
  get (set a i v) k = if k =? i then v else get a k.
Proof.
  intros Hi. unfold get at 1. rewrite len_set.
  destruct (Z.eqb_spec k i) as [->|Hne].
  - replace ((0 <=? i) && (i <? len a)) with true
      by (symmetry; apply andb_true_iff; lia).
    unfold set.
    replace ((0 <=? i) && (i <? len a)) with true
      by (symmetry; apply andb_true_iff; lia).
    apply nth_lookup_Some, list_lookup_insert_eq. unfold len in Hi. lia.
  - unfold get, set.
    replace ((0 <=? i) && (i <? len a)) with true
      by (symmetry; apply andb_true_iff; lia).
    destruct ((0 <=? k) && (k <? len a)) eqn:Hk; [|reflexivity].
    apply andb_true_iff in Hk.
    rewrite !nth_lookup, list_lookup_insert_ne by lia. reflexivity.
Qed.

(** What a read sees after the destructuring swap. *)
Lemma get_swap a i j k :
  0 <= i < len a -> 0 <= j < len a ->
  get (swap a i j) k =
    if k =? j then get a i else if k =? i then get a j else get a k.
Proof.
  intros Hi Hj. unfold swap.
  rewrite get_set by (rewrite len_set; lia).
  rewrite get_set by lia. reflexivity.
Qed.

Lemma swap_Permutation a i j :
  0 <= i < len a -> 0 <= j < len a -> Permutation a (swap a i j).
Proof.
  intros Hi Hj. symmetry. unfold swap.
  unfold set at 1. rewrite len_set.
  replace ((0 <=? j) && (j <? len a)) with true
    by (symmetry; apply andb_true_iff; lia).
  unfold set.
  replace ((0 <=? i) && (i <? len a)) with true
    by (symmetry; apply andb_true_iff; lia).
  apply Permutation_insert_swap; now apply get_lookup.
Qed.

End ArrayFacts.

(** ** Exchanging two entries *)

Lemma entry_get a k : 0 <= k < len a -> entry a k = Some (get a k).
Proof.
  intros Hk. unfold entry. destruct (Z.ltb_spec k 0); [lia|]. now apply get_lookup.
Qed.

Lemma entry_outside a k : k < 0 \/ len a <= k -> entry a k = None.
Proof.
  intros Hk. unfold entry. destruct (Z.ltb_spec k 0); [reflexivity|].
  apply lookup_ge_None. unfold len in Hk. lia.
Qed.

Lemma entry_of_nat a (i : nat) : entry a (Z.of_nat i) = a !! i.
Proof.
  unfold entry. destruct (Z.ltb_spec (Z.of_nat i) 0); [lia|]. now rewrite Nat2Z.id.
Qed.

Lemma entry_is_Some a k : is_Some (entry a k) -> 0 <= k < len a.
Proof.
  intros Hs. destruct (Z.ltb_spec k 0) as [Hneg|Hpos].
  - rewrite entry_outside in Hs by lia. now destruct Hs.
  - destruct (Z.ltb_spec k (len a)); [lia|].
    rewrite entry_outside in Hs by lia. now destruct Hs.
Qed.

(** The destructuring swap of the program exchanges the two entries. *)
Lemma swap_exchanged_at a p q :
  0 <= p < len a -> 0 <= q < len a -> exchanged_at a (swap a p q) p q.
Proof.
  intros Hp Hq. unfold exchanged_at.
  pose proof (len_swap a p q) as Hlen.
  split; [rewrite entry_get by lia; eauto|].
  split; [rewrite entry_get by lia; eauto|].
  split; [unfold len in Hlen; lia|].
  split; [|split].
  - rewrite !entry_get by lia. rewrite get_swap by lia.
    destruct (Z.eqb_spec p q) as [->|Hne]; [reflexivity|].
    now rewrite Z.eqb_refl.
  - rewrite !entry_get by lia. rewrite get_swap by lia.
    now rewrite Z.eqb_refl.
  - intros k Hkp Hkq.
    destruct (Z.ltb_spec k 0) as [Hneg|Hpos].
    { now rewrite !entry_outside by lia. }
    destruct (Z.ltb_spec k (len a)) as [Hin|Hout].
    + rewrite !entry_get by lia. rewrite get_swap by lia.
      destruct (Z.eqb_spec k q); [lia|]. destruct (Z.eqb_spec k p); [lia|]. reflexivity.
    + now rewrite !entry_outside by lia.
Qed.

(** The exchange of two entries is determined entry by entry. *)
Lemma exchanged_at_exchanged a b p q :
  exchanged_at a b p q -> b = exchanged a p q.
Proof.
  intros (Hp & Hq & Hlen & Ebp & Ebq & Eother).
  apply list_eq. intros i. unfold exchanged. rewrite list_lookup_imap.
  rewrite <- !entry_of_nat.
  destruct (Z.ltb_spec (Z.of_nat i) (len a)) as [Hin|Hout].
  - destruct (entry a (Z.of_nat i)) as [v|] eqn:Ev.
    2:{ rewrite entry_get in Ev by lia. discriminate. }
    simpl. destruct (Z.eqb_spec (Z.of_nat i) p) as [Hip|Hip].
    + rewrite Hip, Ebp. destruct Hq as [w ->]. reflexivity.
    + destruct (Z.eqb_spec (Z.of_nat i) q) as [Hiq|Hiq].
      * rewrite Hiq, Ebq. destruct Hp as [w ->]. reflexivity.
      * rewrite Eother by assumption. exact Ev.
  - rewrite (entry_outside a (Z.of_nat i)) by lia. simpl.
    apply entry_outside. unfold len in *. lia.
Qed.

Lemma swap_exchanged a p q :
  0 <= p < len a -> 0 <= q < len a -> swap a p q = exchanged a p q.
Proof. intros Hp Hq. apply exchanged_at_exchanged. now apply swap_exchanged_at. Qed.

Section TraceFacts.

Context (R : Z -> Z -> Prop).

Lemma trace_from_app a tr1 b tr2 c :
  trace_from R a tr1 b -> trace_from R b tr2 c -> trace_from R a (tr1 ++ tr2) c.
Proof.
  induction 1 as [a | a j k tr b Hj Hjk Hk HC _ IH | a i j tr b Hi Hj HR _ IH];
    intros H2; simpl.
  - exact H2.
  - apply trace_compare; auto.
  - apply trace_swap; auto.
Qed.

Lemma trace_from_len a tr b : trace_from R a tr b -> len b = len a.
Proof.
  induction 1 as [| |a i j tr b Hi Hj HR _ IH]; auto.
  now rewrite IH, len_swap.
Qed.

Lemma trace_from_mono (R' : Z -> Z -> Prop) a tr b :
  (forall i j, R i j -> R' i j) -> trace_from R a tr b -> trace_from R' a tr b.
Proof.
  intros HRR'. induction 1; constructor; auto.
Qed.

Lemma records_mono (R' : Z -> Z -> Prop) s t :
  (forall i j, R i j -> R' i j) -> records R s t -> records R' s t.
Proof.
  intros HRR' (tr & E & H). exists tr. split; [exact E|].
  eapply trace_from_mono; eauto.
Qed.

Lemma records_refl s : records R s s.
Proof. exists []. split; [now rewrite app_nil_r | constructor]. Qed.

Lemma records_trans s t u : records R s t -> records R t u -> records R s u.
Proof.
  intros (tr1 & E1 & H1) (tr2 & E2 & H2). exists (tr1 ++ tr2). split.
  - now rewrite E2, E1, app_assoc.
  - eapply trace_from_app; eauto.
Qed.

Lemma records_len s t : records R s t -> len (arr t) = len (arr s).
Proof. intros (tr & _ & H). eapply trace_from_len; eauto. Qed.

Lemma records_push_compare s j k :
  0 <= j -> j < k -> k < len (arr s) -> R j k ->
  records R s (push (Some (j, k)) None s).
Proof.
  intros. eexists. split; [reflexivity|]. simpl.
  apply trace_compare; auto. constructor.
Qed.

Lemma records_swap_frames s i j :
  0 <= i < len (arr s) -> 0 <= j < len (arr s) -> R i j ->
  records R s (push None None (exchange i j (push None (Some (i, j)) s))).
Proof.
  intros. eexists. split.
  - simpl. rewrite <- app_assoc. reflexivity.
  - simpl. apply trace_swap; auto. constructor.
Qed.

End TraceFacts.

(** *** The recorders only push such traces *)

Lemma bubble_body_records j s :
  0 <= j -> j + 1 < len (arr s) -> records adjacent s (bubble_body j s).
Proof.
  intros Hj Hj1. unfold bubble_body.
  set (s1 := push _ _ s).
  assert (H1 : records adjacent s s1)
    by (apply records_push_compare; unfold adjacent; lia).
  destruct (_ >? _); [|exact H1].
  eapply records_trans; [exact H1|].
  apply records_swap_frames; simpl; unfold adjacent; lia.
Qed.

Lemma bubble_pass_records n i s :
  n = len (arr s) -> 0 <= i ->
  records adjacent s (bubble_pass n i s).
Proof.
  intros Hn Hi. unfold bubble_pass.
  destruct (Z_le_gt_dec 0 (n - i - 1)) as [Hle|Hgt].
  - apply (for_range_inv (fun _ t => records adjacent s t) bubble_body 0 (n - i - 1) s Hle).
    + apply records_refl.
    + intros j t Hj Ht. eapply records_trans; [exact Ht|].
      apply bubble_body_records; [lia|].
      rewrite (records_len _ _ _ Ht). lia.
  - rewrite for_range_empty by lia. apply records_refl.
Qed.

Lemma bubble_run_records A :
  records adjacent (mkRec A []) (bubble_run A).
Proof.
  unfold bubble_run, bubble_loops, bubble_passes.
  destruct (Z_le_gt_dec 0 (len A - 1)) as [Hle|Hgt].
  - apply (for_range_inv (fun _ t => records adjacent (mkRec A []) t)
             (bubble_pass (len A)) 0 (len A - 1) _ Hle).
    + apply records_refl.
    + intros i t Hi Ht. eapply records_trans; [exact Ht|].
      apply bubble_pass_records; [|lia].
      now rewrite (records_len _ _ _ Ht).
  - rewrite for_range_empty by lia. apply records_refl.
Qed.

Lemma bubbleSort_trace A :
  trace_from adjacent A (bubbleSort A) (arr (bubble_run A)).
Proof.
  destruct (bubble_run_records A) as (tr & E & H). simpl in E.
  unfold bubbleSort. now rewrite E.
Qed.

Lemma partition_body_records low high pivot j i s :
  0 <= low -> low - 1 <= i -> i < j -> j < high -> high < len (arr s) ->
  records (between low high) s (snd (partition_body high pivot j (i, s))).
Proof.
  intros Hlow Hi Hij Hj Hh. unfold partition_body.
  set (s1 := push _ _ s).
  assert (H1 : records (between low high) s s1)
    by (apply records_push_compare; unfold between; lia).
  destruct (_ <=? _); simpl; [|exact H1].
  eapply records_trans; [exact H1|].
  apply records_swap_frames; simpl; unfold between; lia.
Qed.

Lemma partition_body_index high pivot j i s :
  i <= fst (partition_body high pivot j (i, s)) <= i + 1.
Proof. unfold partition_body. destruct (_ <=? _); simpl; lia. Qed.

(** The loop of [partition], with the bounds of its local [i]. *)
Lemma partition_loop_records low high pivot s :
  0 <= low -> low <= high -> high < len (arr s) ->
  let r := for_range low high (partition_body high pivot) (low - 1, s) in
  low - 1 <= fst r < high /\ records (between low high) s (snd r).
Proof.
  intros Hlow Hle Hh r. subst r.
  apply (for_range_inv
    (fun j (st : Z * Recorder) =>
       low - 1 <= fst st < j /\ records (between low high) s (snd st))
    (partition_body high pivot) low high (low - 1, s) Hle).
  - simpl. split; [lia | apply records_refl].
  - intros j [i t] Hj [Hi Ht]. simpl in Hi, Ht.
    pose proof (partition_body_index high pivot j i t) as Hidx.
    split; [lia|].
    eapply records_trans; [exact Ht|].
    apply (partition_body_records low); try lia.
    rewrite (records_len _ _ _ Ht). lia.
Qed.

Lemma partition_records low high s :
  0 <= low -> low <= high -> high < len (arr s) ->
  records (between low high) s (snd (partition low high s)).
Proof.
  intros Hlow Hle Hh. unfold partition.
  destruct (partition_loop_records low high (get (arr s) high) s Hlow Hle Hh) as [Hi Hrec].
  destruct (for_range low high _ _) as [i t]. simpl in *.
  eapply records_trans; [exact Hrec|].
  pose proof (records_len _ _ _ Hrec) as Hlen.
  apply records_swap_frames; unfold between; lia.
Qed.

(** The defining equation of [quickSortHelper], as the source has it. *)
Lemma quickSortHelper_eq {S : Type} `{Recording S} low high (s : S) :
  quickSortHelper low high s =
    if low <? high then
      let '(pivotIndex, s1) := partition low high s in
      let s2 := quickSortHelper low (pivotIndex - 1) s1 in
      quickSortHelper (pivotIndex + 1) high s2
    else s.
Proof.
  rewrite quickSortHelper_equation_1. 
  destruct (Z_lt_dec low high) as [Hlt|Hge]; simpl.
  - replace (low <? high) with true by (symmetry; apply Z.ltb_lt; lia).
    destruct (partition low high s) as [p s1]. reflexivity.
  - replace (low <? high) with false by (symmetry; apply Z.ltb_ge; lia).
    reflexivity.
Qed.

(** Induction along the calls of [quickSortHelper]. *)
Lemma quickSortHelper_rect (P : Z -> Z -> Recorder -> Recorder -> Prop) :
  (forall low high s, high <= low -> P low high s s) ->
  (forall low high s p s1,
      low < high ->
      partition low high s = (p, s1) ->
      low <= p <= high ->
      P low (p - 1) s1 (quickSortHelper low (p - 1) s1) ->
      P (p + 1) high (quickSortHelper low (p - 1) s1)
        (quickSortHelper (p + 1) high (quickSortHelper low (p - 1) s1)) ->
      P low high s (quickSortHelper (p + 1) high (quickSortHelper low (p - 1) s1))) ->
  forall low high s, P low high s (quickSortHelper low high s).
Proof.
  intros Hbase Hrec low high.
  remember (Z.to_nat (high - low + 1)) as m eqn:Hm.
  revert low high Hm.
  induction m as [m IH] using lt_wf_ind. intros low high Hm s.
  rewrite quickSortHelper_eq.
  destruct (Z.ltb_spec low high) as [Hlt|Hge]; [|apply Hbase; lia].
  destruct (partition low high s) as [p s1] eqn:Hp.
  pose proof (partition_index_range low high s ltac:(lia)) as Hr.
  rewrite Hp in Hr. simpl in Hr.
  cbv zeta. apply (Hrec low high s p s1 Hlt Hp Hr).
  - apply (IH (Z.to_nat (p - 1 - low + 1))); [lia | reflexivity].
  - apply (IH (Z.to_nat (high - (p + 1) + 1))); [lia | reflexivity].
Qed.

Lemma quickSortHelper_records low high s :
  0 <= low -> high < len (arr s) ->
  records (between low high) s (quickSortHelper low high s).
Proof.
  revert s.
  apply (quickSortHelper_rect (fun low high s t =>
    0 <= low -> high < len (arr s) -> records (between low high) s t)).
  - intros. apply records_refl.
  - intros l h s p s1 Hlt Hp Hr IH1 IH2 Hl Hh.
    assert (H1 : records (between l h) s s1).
    { replace s1 with (snd (partition l h s)) by now rewrite Hp.
      apply partition_records; lia. }
    pose proof (records_len _ _ _ H1) as L1.
    assert (H2 : records (between l (p - 1)) s1 (quickSortHelper l (p - 1) s1))
      by (apply IH1; lia).
    pose proof (records_len _ _ _ H2) as L2.
    eapply records_trans; [exact H1|].
    eapply records_trans.
    + eapply records_mono; [|exact H2]. unfold between. lia.
    + eapply records_mono; [|apply IH2; lia]. unfold between. lia.
Qed.

Lemma quick_run_records A :
  records ordered (mkRec A []) (quick_run A).
Proof.
  unfold quick_run.
  apply (records_mono (between 0 (len A - 1))); [unfold between, ordered; lia|].
  apply quickSortHelper_records; simpl; lia.
Qed.

Lemma quickSort_trace A :
  trace_from ordered A (quickSort A) (arr (quick_run A)).
Proof.
  destruct (quick_run_records A) as (tr & E & H). simpl in E.
  unfold quickSort. now rewrite E.
Qed.

(** ** What every recorded trace satisfies *)

Section TraceProperties.

Context (R : Z -> Z -> Prop).

Lemma trace_Permutation a tr b :
  trace_from R a tr b ->
  Permutation a b /\ Forall (fun st => Permutation a (array st)) tr.
Proof.
  induction 1 as [a | a j k tr b Hj Hjk Hk HC _ [IHp IHf]
                    | a i j tr b Hi Hj HR _ [IHp IHf]].
  - split; [reflexivity | constructor].
  - split; [exact IHp|]. constructor; [reflexivity | exact IHf].
  - pose proof (swap_Permutation a i j Hi Hj) as Hs.
    split; [etransitivity; eauto|].
    constructor; [reflexivity|]. constructor; [exact Hs|].
    eapply Forall_impl; [exact IHf|]. intros st Hst. simpl in Hst.
    etransitivity; eauto.
Qed.

Lemma trace_indices a tr b :
  trace_from R a tr b -> Forall (frame_indices_ok R (len a)) tr.
Proof.
  induction 1 as [a | a j k tr b Hj Hjk Hk HC _ IH | a i j tr b Hi Hj HR _ IH].
  - constructor.
  - constructor; [|exact IH]. split; simpl; intros p q E; [|discriminate].
    injection E as <- <-. repeat split; auto; lia.
  - rewrite len_swap in IH.
    constructor; [|constructor; [|exact IH]].
    + split; simpl; intros p q E; [discriminate|].
      injection E as <- <-. auto.
    + split; simpl; intros p q E; discriminate.
Qed.

Lemma trace_not_both a tr b :
  trace_from R a tr b -> Forall not_both tr.
Proof.
  induction 1 as [a | a j k tr b Hj Hjk Hk HC _ IH | a i j tr b Hi Hj HR _ IH].
  - constructor.
  - constructor; [now right | exact IH].
  - constructor; [now left|]. constructor; [now left | exact IH].
Qed.

Lemma trace_swap_then_result a tr b :
  trace_from R a tr b -> swap_then_result tr.
Proof.
  induction 1 as [a | a j k tr b Hj Hjk Hk HC _ IH | a i j tr b Hi Hj HR _ IH];
    intros n st p q Hn Hsw.
  - discriminate.
  - destruct n as [|n]; simpl in Hn.
    + injection Hn as <-. discriminate.
    + exact (IH n st p q Hn Hsw).
  - destruct n as [|[|n]]; simpl in Hn.
    + injection Hn as <-. simpl in Hsw. injection Hsw as <- <-.
      eexists. split; [reflexivity|]. split; [reflexivity|]. split; [reflexivity|].
      simpl. now apply swap_exchanged_at.
    + injection Hn as <-. discriminate.
    + exact (IH n st p q Hn Hsw).
Qed.

(** The last frame, when there is one, shows the final array. *)
Lemma trace_last a tr b st :
  trace_from R a tr b -> last tr = Some st -> array st = b.
Proof.
  induction 1 as [a | a j k tr b Hj Hjk Hk HC Htr IH | a i j tr b Hi Hj HR Htr IH];
    intros Hl.
  - discriminate.
  - destruct tr as [|st' tr].
    + injection Hl as <-. inversion Htr; subst. reflexivity.
    + rewrite last_cons_cons in Hl. auto.
  - rewrite last_cons_cons in Hl. destruct tr as [|st' tr].
    + injection Hl as <-. inversion Htr; subst. reflexivity.
    + rewrite last_cons_cons in Hl. auto.
Qed.

End TraceProperties.

(** ** Sortedness *)

Lemma len_cons x a : len (x :: a) = len a + 1.
Proof. unfold len. simpl length. lia. Qed.

Lemma get_in_range a i :
  0 <= i < len a -> get a i = nth (Z.to_nat i) a 0.
Proof.
  intros Hi. unfold get.
  destruct (Z.leb_spec 0 i); [|lia]. destruct (Z.ltb_spec i (len a)); [|lia].
  reflexivity.
Qed.

Lemma get_cons_0 x a : get (x :: a) 0 = x.
Proof.
  rewrite get_in_range; [reflexivity|].
  rewrite len_cons. pose proof (len_nonneg a). lia.
Qed.

Lemma get_cons_succ x a k : 0 <= k < len a -> get (x :: a) (k + 1) = get a k.
Proof.
  intros Hk. rewrite !get_in_range by (rewrite ?len_cons; lia).
  replace (Z.to_nat (k + 1)) with (Datatypes.S (Z.to_nat k)) by lia.
  reflexivity.
Qed.

Lemma Forall_get (P : Z -> Prop) a :
  (forall k, 0 <= k < len a -> P (get a k)) -> Forall P a.
Proof.
  induction a as [|x a IH]; intros H; constructor.
  - rewrite <- (get_cons_0 x a). apply H. rewrite len_cons. pose proof (len_nonneg a). lia.
  - apply IH. intros k Hk. rewrite <- (get_cons_succ x a k Hk).
    apply H. rewrite len_cons. lia.
Qed.

Lemma ascending_on_StronglySorted a :
  ascending_on a 0 (len a - 1) -> StronglySorted Z.le a.
Proof.
  induction a as [|x a IH]; intros H; constructor.
  - apply IH. intros p q Hp Hpq Hq.
    rewrite <- (get_cons_succ x a p), <- (get_cons_succ x a q) by lia.
    apply H; rewrite ?len_cons; lia.
  - apply Forall_get. intros k Hk.
    rewrite <- (get_cons_0 x a) at 1. rewrite <- (get_cons_succ x a k Hk).
    apply H; rewrite ?len_cons; lia.
Qed.

(** *** Bubble sort *)

Lemma bubble_body_arr j s :
  arr (bubble_body j s) =
    if get (arr s) j >? get (arr s) (j + 1) then swap (arr s) j (j + 1) else arr s.
Proof. unfold bubble_body. simpl. destruct (_ >? _); reflexivity. Qed.

Ltac case_eqb :=
  repeat match goal with
  | |- context [Z.eqb ?x ?y] => destruct (Z.eqb_spec x y); subst
  end.

Lemma bubble_body_inv n i j s :
  0 <= i -> 0 <= j < n - i - 1 ->
  settled_tail n i (arr s) -> bubbled_to j (arr s) ->
  settled_tail n i (arr (bubble_body j s)) /\ bubbled_to (j + 1) (arr (bubble_body j s)).
Proof.
  intros Hi Hj [Hlen Htail] Hmax. rewrite bubble_body_arr.
  destruct (Z.gtb_spec (get (arr s) j) (get (arr s) (j + 1))) as [Hgt|Hle].
  - split; [split|].
    + now rewrite len_swap.
    + intros p q Hp Hpq Hq Hnq.
      rewrite !get_swap by lia. case_eqb; try lia; apply Htail; lia.
    + intros p Hp Hpj.
      rewrite !get_swap by lia. case_eqb; try lia.
      apply Hmax; lia.
  - split; [split; assumption|].
    intros p Hp Hpj. destruct (Z.eq_dec p (j + 1)) as [->|Hne]; [lia|].
    transitivity (get (arr s) j); [apply Hmax|]; lia.
Qed.

Lemma bubble_pass_inv n i s :
  0 <= i < n - 1 ->
  settled_tail n i (arr s) -> settled_tail n (i + 1) (arr (bubble_pass n i s)).
Proof.
  intros Hi Hs. unfold bubble_pass.
  assert (Hle : 0 <= n - i - 1) by lia.
  pose proof (for_range_inv
    (fun j t => settled_tail n i (arr t) /\ bubbled_to j (arr t))
    bubble_body 0 (n - i - 1) s Hle) as H.
  destruct H as [[Hlen Htail] Hmax].
  - split; [exact Hs|]. intros p Hp Hp0. replace p with 0 by lia. lia.
  - intros j t Hj [Ht Hm]. apply (bubble_body_inv n i); auto; lia.
  - split; [exact Hlen|].
    intros p q Hp Hpq Hq Hnq.
    destruct (Z.eq_dec q (n - i - 1)) as [->|Hne].
    + apply Hmax; lia.
    + apply Htail; lia.
Qed.

Lemma bubble_run_ascending A :
  ascending_on (arr (bubble_run A)) 0 (len A - 1).
Proof.
  unfold bubble_run, bubble_loops, bubble_passes.
  destruct (Z_le_gt_dec 0 (len A - 1)) as [Hle|Hgt].
  - pose proof (for_range_inv
      (fun i t => settled_tail (len A) i (arr t))
      (bubble_pass (len A)) 0 (len A - 1) (mkRec A []) Hle) as H.
    destruct H as [Hlen Htail].
    + split; [reflexivity|]. simpl. intros. lia.
    + intros i t Hi Ht. apply bubble_pass_inv; auto; lia.
    + intros p q Hp Hpq Hq.
      destruct (Z.eq_dec q 0) as [->|Hne].
      * replace p with 0 by lia. lia.
      * apply Htail; lia.
  - rewrite for_range_empty by lia. simpl.
    intros p q Hp Hpq Hq. pose proof (len_nonneg A). 
    replace q with p by lia. lia.
Qed.

(** *** Quick sort *)

Lemma trace_within low high a tr b :
  0 <= low -> high < len a ->
  trace_from (between low high) a tr b -> within low high a b.
Proof.
  intros Hlow Hhigh H.
  induction H as [a | a j k tr b Hj Hjk Hk HC _ IH | a i j tr b Hi Hj HR _ IH].
  - repeat split; auto.
  - auto.
  - destruct IH as (L & O & T); [now rewrite len_swap|].
    rewrite len_swap in L. destruct HR as (? & ? & ?).
    split; [exact L|]. split.
    + intros k Hk. rewrite O by exact Hk.
      rewrite get_swap by lia. case_eqb; first [reflexivity | lia].
    + intros P HP. apply T. intros k Hk.
      rewrite get_swap by lia. case_eqb; apply HP; lia.
Qed.

Lemma records_within low high s t :
  0 <= low -> high < len (arr s) ->
  records (between low high) s t -> within low high (arr s) (arr t).
Proof. intros Hl Hh (tr & _ & H). eapply trace_within; eauto. Qed.

Lemma partition_body_arr high pivot j i s :
  let r := partition_body high pivot j (i, s) in
  (get (arr s) j <= pivot /\ fst r = i + 1 /\ arr (snd r) = swap (arr s) (i + 1) j) \/
  (pivot < get (arr s) j /\ fst r = i /\ arr (snd r) = arr s).
Proof.
  unfold partition_body. simpl.
  destruct (Z.leb_spec (get (arr s) j) pivot); simpl; [left | right]; auto.
Qed.

Lemma partition_body_partitioned low high pivot n j st :
  0 <= low -> low <= j < high -> high < n ->
  partitioned low high pivot n j st ->
  partitioned low high pivot n (j + 1) (partition_body high pivot j st).
Proof.
  intros Hlow Hj Hh. destruct st as [i t]. intros (Hi & Hlen & Hpiv & Hsmall & Hbig).
  destruct (partition_body_arr high pivot j i t) as [(Hc & Ei & Ea)|(Hc & Ei & Ea)];
    destruct (partition_body high pivot j (i, t)) as [i' t']; simpl in Ei, Ea; subst i'.
  - unfold partitioned. rewrite Ea, len_swap.
    split; [lia|]. split; [exact Hlen|]. split; [|split].
    + rewrite get_swap by lia. case_eqb; first [exact Hpiv | lia].
    + intros k Hk1 Hk2. rewrite get_swap by lia.
      case_eqb;
        first [lia | apply Hsmall; lia | replace (i + 1) with j by lia; assumption].
    + intros k Hk1 Hk2. rewrite get_swap by lia.
      case_eqb; first [lia | apply Hbig; lia].
  - unfold partitioned. rewrite Ea.
    split; [lia|]. split; [exact Hlen|]. split; [exact Hpiv|]. split; [exact Hsmall|].
    intros k Hk1 Hk2. destruct (Z.eq_dec k j) as [->|Hne]; [lia|]. apply Hbig; lia.
Qed.

(** After [partition] the pivot sits at the returned index, with smaller or
    equal values before it and larger values after it. *)
Lemma partition_pivot_placed low high s :
  0 <= low -> low <= high -> high < len (arr s) ->
  let r := partition low high s in
  (forall k, low <= k -> k < fst r -> get (arr (snd r)) k <= get (arr (snd r)) (fst r)) /\
  (forall k, fst r < k -> k <= high -> get (arr (snd r)) (fst r) <= get (arr (snd r)) k).
Proof.
  intros Hlow Hle Hh. unfold partition.
  pose proof (for_range_inv
    (partitioned low high (get (arr s) high) (len (arr s)))
    (partition_body high (get (arr s) high)) low high (low - 1, s) Hle) as H.
  destruct (for_range low high _ _) as [i t].
  destruct H as (Hi & Hlen & Hpiv & Hsmall & Hbig).
  - simpl. repeat split; auto; intros; lia.
  - intros j st Hj. apply partition_body_partitioned; lia.
  - simpl. split; intros k Hk1 Hk2; rewrite !get_swap by lia; case_eqb;
      first [ lia
            | rewrite Hpiv; apply Hsmall; lia
            | apply Z.lt_le_incl; rewrite Hpiv; apply Hbig; lia ].
Qed.

Lemma quickSortHelper_ascending low high s :
  0 <= low -> high < len (arr s) ->
  ascending_on (arr (quickSortHelper low high s)) low high.
Proof.
  revert s.
  apply (quickSortHelper_rect (fun low high s t =>
    0 <= low -> high < len (arr s) -> ascending_on (arr t) low high)).
  - intros l h s Hge _ _ p q Hp Hpq Hq. replace q with p by lia. lia.
  - intros l h s p s1 Hlt Hp Hr IH1 IH2 Hl Hh.
    set (t1 := quickSortHelper l (p - 1) s1) in *.
    set (t2 := quickSortHelper (p + 1) h t1) in *.
    (* the three calls *)
    assert (R0 : records (between l h) s s1).
    { replace s1 with (snd (partition l h s)) by now rewrite Hp.
      apply partition_records; lia. }
    pose proof (records_len _ _ _ R0) as L0.
    assert (R1 : records (between l (p - 1)) s1 t1)
      by (apply quickSortHelper_records; lia).
    pose proof (records_len _ _ _ R1) as L1.
    assert (R2 : records (between (p + 1) h) t1 t2)
      by (apply quickSortHelper_records; lia).
    apply records_within in R1; [|lia|lia]. destruct R1 as (_ & O1 & T1).
    apply records_within in R2; [|lia|lia]. destruct R2 as (_ & O2 & T2).
    pose proof (partition_pivot_placed l h s Hl ltac:(lia) Hh) as Hpl.
    rewrite Hp in Hpl. simpl in Hpl. destruct Hpl as [Hsmall Hbig].
    specialize (IH1 Hl ltac:(lia)). specialize (IH2 ltac:(lia) ltac:(lia)).
    (* values on the left stay at most the pivot, on the right at least *)
    assert (Hleft : forall k, l <= k <= p - 1 -> get (arr t2) k <= get (arr s1) p).
    { intros k Hk. rewrite O2 by lia.
      apply (T1 (fun v => v <= get (arr s1) p)); [|exact Hk].
      intros k' Hk'. apply Hsmall; lia. }
    assert (Hmid : get (arr t2) p = get (arr s1) p).
    { rewrite O2 by lia. apply O1. lia. }
    assert (Hright : forall k, p + 1 <= k <= h -> get (arr s1) p <= get (arr t2) k).
    { apply (T2 (fun v => get (arr s1) p <= v)).
      intros k' Hk'. rewrite O1 by lia. apply Hbig; lia. }
    intros a b Ha Hab Hb.
    destruct (Z_lt_le_dec b p) as [Hbp|Hbp].
    + rewrite (O2 a), (O2 b) by lia. apply IH1; lia.
    + destruct (Z_lt_le_dec p a) as [Hpa|Hpa].
      * apply IH2; lia.
      * assert (get (arr t2) a <= get (arr s1) p).
        { destruct (Z.eq_dec a p) as [->|]; [lia | apply Hleft; lia]. }
        assert (get (arr s1) p <= get (arr t2) b).
        { destruct (Z.eq_dec b p) as [->|]; [lia | apply Hright; lia]. }
        lia.
Qed.

Lemma quick_run_ascending A :
  ascending_on (arr (quick_run A)) 0 (len A - 1).
Proof.
  unfold quick_run. apply quickSortHelper_ascending; simpl; lia.
Qed.

(** ** The ascending sort of a list, as a reference *)

Lemma insert_ascending_Permutation x l : Permutation (x :: l) (insert_ascending x l).
Proof.
  induction l as [|y l IH]; simpl; [reflexivity|].
  destruct (x <=? y); [reflexivity|].
  rewrite <- IH. apply perm_swap.
Qed.

Lemma insert_ascending_sorted x l :
  StronglySorted Z.le l -> StronglySorted Z.le (insert_ascending x l).
Proof.
  induction 1 as [|y l Hs IH Hy]; simpl.
  - repeat constructor.
  - destruct (Z.leb_spec x y) as [Hxy|Hxy].
    + constructor; [constructor; assumption|].
      constructor; [exact Hxy|].
      eapply Forall_impl; [exact Hy|]. intros z Hz. simpl in Hz. lia.
    + constructor; [exact IH|].
      rewrite <- insert_ascending_Permutation.
      constructor; [lia | exact Hy].
Qed.

Lemma ascending_sort_Permutation l : Permutation l (ascending_sort l).
Proof.
  induction l as [|x l IH]; simpl; [reflexivity|].
  rewrite <- insert_ascending_Permutation. now constructor.
Qed.

Lemma ascending_sort_sorted l : StronglySorted Z.le (ascending_sort l).
Proof.
  induction l as [|x l IH]; simpl; [constructor|].
  now apply insert_ascending_sorted.
Qed.

(** Two ascending lists with the same values are the same list. *)
Lemma ascending_unique l1 :
  forall l2, StronglySorted Z.le l1 -> StronglySorted Z.le l2 ->
             Permutation l1 l2 -> l1 = l2.
Proof.
  induction l1 as [|x l1 IH]; intros l2 H1 H2 HP.
  - apply Permutation_nil in HP. now subst.
  - destruct l2 as [|y l2]; [symmetry in HP; now apply Permutation_nil in HP|].
    apply StronglySorted_inv in H1 as [H1 Hx].
    apply StronglySorted_inv in H2 as [H2 Hy].
    assert (x = y).
    { assert (Hin1 : In y (x :: l1))
        by (eapply Permutation_in; [symmetry; exact HP | now left]).
      assert (Hin2 : In x (y :: l2))
        by (eapply Permutation_in; [exact HP | now left]).
      rewrite List.Forall_forall in Hx, Hy.
      destruct Hin1 as [->|Hin1]; [reflexivity|].
      destruct Hin2 as [->|Hin2]; [reflexivity|].
      specialize (Hx _ Hin1). specialize (Hy _ Hin2). lia. }
    subst y. f_equal. apply IH; auto.
    eapply Permutation_cons_inv; eauto.
Qed.

Lemma ascending_is_sort A b :
  Permutation A b -> ascending_on b 0 (len b - 1) ->
  b = ascending_sort A /\ Sorted Z.le b.
Proof.
  intros HP Hasc. apply ascending_on_StronglySorted in Hasc.
  split; [|now apply StronglySorted_Sorted].
  apply ascending_unique; auto using ascending_sort_sorted.
  rewrite <- HP. apply ascending_sort_Permutation.
Qed.

Lemma bubble_run_sorted A :
  arr (bubble_run A) = ascending_sort A /\ Sorted Z.le (arr (bubble_run A)) /\
  Permutation A (arr (bubble_run A)).
Proof.
  pose proof (bubbleSort_trace A) as Ht.
  pose proof (proj1 (trace_Permutation _ _ _ _ Ht)) as HP.
  pose proof (bubble_run_ascending A) as Hasc.
  rewrite <- (trace_from_len _ _ _ _ Ht) in Hasc.
  destruct (ascending_is_sort A _ HP Hasc). auto.
Qed.

Lemma quick_run_sorted A :
  arr (quick_run A) = ascending_sort A /\ Sorted Z.le (arr (quick_run A)) /\
  Permutation A (arr (quick_run A)).
Proof.
  pose proof (quickSort_trace A) as Ht.
  pose proof (proj1 (trace_Permutation _ _ _ _ Ht)) as HP.
  pose proof (quick_run_ascending A) as Hasc.
  rewrite <- (trace_from_len _ _ _ _ Ht) in Hasc.
  destruct (ascending_is_sort A _ HP Hasc). auto.
Qed.

(** ** Counting the frames of bubble sort *)

Lemma count_frames_app f tr1 tr2 :
  count_frames f (tr1 ++ tr2) = count_frames f tr1 + count_frames f tr2.
Proof. unfold count_frames. rewrite List.filter_app, length_app. lia. Qed.

Lemma step_count_app tr1 tr2 : step_count (tr1 ++ tr2) = step_count tr1 + step_count tr2.
Proof. unfold step_count. rewrite length_app. lia. Qed.

(** One iteration of the inner loop: one comparison frame, and two more
    frames exactly when the compared pair is inverted. *)
Lemma bubble_body_frames j s :
  let inverted := get (arr s) j >? get (arr s) (j + 1) in
  step_count (steps (bubble_body j s)) =
    step_count (steps s) + (if inverted then 3 else 1) /\
  count_frames is_comparing (steps (bubble_body j s)) =
    count_frames is_comparing (steps s) + 1 /\
  count_frames is_swapping (steps (bubble_body j s)) =
    count_frames is_swapping (steps s) + (if inverted then 1 else 0).
Proof.
  unfold bubble_body. simpl. destruct (_ >? _); simpl;
    rewrite ?step_count_app, ?count_frames_app; unfold step_count, count_frames; simpl;
    repeat split; lia.
Qed.

Lemma bubble_pass_frames n i s :
  0 <= n - i - 1 ->
  tally (n - i - 1) (frames_since s (bubble_pass n i s)).
Proof.
  intros Hle. unfold bubble_pass.
  pose proof (for_range_inv
    (fun j t => tally j (frames_since s t)) bubble_body 0 (n - i - 1) s Hle) as H.
  apply H; clear H.
  - unfold tally, frames_since. lia.
  - intros j t Hj. unfold tally, frames_since.
    destruct (bubble_body_frames j t) as (E1 & E2 & E3).
    rewrite E1, E2, E3. destruct (_ >? _); lia.
Qed.

(** After [i] passes, [i*n - i*(i+1)/2] comparisons were made. *)
Lemma bubble_run_frames A :
  let n := len A in
  let '(total, cmp, swp) := frames_since (mkRec A []) (bubble_run A) in
  (1 <= n -> 2 * cmp = n * (n - 1)) /\ (n <= 1 -> cmp = 0) /\
  0 <= swp <= cmp /\ total = cmp + 2 * swp.
Proof.
  intros n. unfold bubble_run, bubble_loops, bubble_passes. fold n.
  destruct (Z_le_gt_dec 0 (n - 1)) as [Hle|Hgt].
  - pose proof (for_range_inv
      (fun i t =>
         let '(total, cmp, swp) := frames_since (mkRec A []) t in
         2 * cmp = i * (2 * n - i - 1) /\ 0 <= swp <= cmp /\ total = cmp + 2 * swp)
      (bubble_pass n) 0 (n - 1) (mkRec A []) Hle) as H.
    cbv beta in H.
    destruct (frames_since _ (for_range 0 (n - 1) (bubble_pass n) (mkRec A []))) as [[total cmp] swp].
    destruct H as (Hc & Hs & Ht).
    + unfold frames_since. simpl. lia.
    + intros i t Hi.
      pose proof (bubble_pass_frames n i t ltac:(lia)) as Hp.
      unfold frames_since, tally in *. intros (Hc & Hs & Ht). 
      destruct Hp as (Pc & Ps & Pt). nia.
    + repeat split; try lia; nia.
  - rewrite for_range_empty by lia. unfold frames_since. simpl. lia.
Qed.

Lemma bubble_run_after_passes A : bubble_run A = after_passes A (len A - 1).
Proof. reflexivity. Qed.

(** ** The controller invariant *)

Section ControllerInvariant.

Import SortingVisualizer.

Lemma length_of_nonneg steps : 0 <= length_of steps.
Proof. unfold length_of. lia. Qed.

Lemma handle_in_bounds e c :
  settled c -> enabled e c -> index_in_bounds c -> index_in_bounds (handle e c).
Proof.
  intros (_ & _ & Htimer & _) Hen Hb. unfold index_in_bounds in *.
  destruct c as [[a ss idx alg sp pl sz] t st rs]. simpl in *.
  pose proof (length_of_nonneg ss) as Hlen.
  destruct e; simpl in *; try exact Hb.
  - unfold length_of. simpl. lia.
  - unfold startSort. simpl. destruct (_ <=? _); simpl; lia.
  - lia.
  - lia.
  - rewrite Hen in Htimer. unfold animation_effect in Htimer. simpl in Htimer.
    destruct pl; simpl in Htimer; [|discriminate].
    destruct (Z.leb_spec (length_of ss - 1) idx); simpl in Htimer; [discriminate|].
    lia.
Qed.

Lemma flush_in_bounds newArray c :
  index_in_bounds c -> index_in_bounds (flush newArray c).
Proof.
  unfold index_in_bounds, flush.
  destruct c as [[a ss idx alg sp pl sz] t st rs]. simpl. intros Hb.
  unfold animation_effect, steps_effect, reset_effect. simpl.
  pose proof (length_of_nonneg (bubbleSort a)).
  pose proof (length_of_nonneg (quickSort a)).
  destruct pl, (length_of ss - 1 <=? idx), st, rs, (len a =? 0), alg; simpl;
    unfold length_of in *; simpl; lia.
Qed.

Lemma reachable_in_bounds c : reachable c -> index_in_bounds c.
Proof.
  induction 1 as [|c c' _ IH Hstep].
  - unfold index_in_bounds, length_of. simpl. lia.
  - destruct Hstep as [e c Hs He | newArray c _ _].
    + now apply handle_in_bounds.
    + now apply flush_in_bounds.
Qed.

Lemma settled_stopped_at_end c : settled c -> stopped_at_end c.
Proof.
  intros (_ & _ & _ & Hstop) Hend. rewrite Hend in Hstop.
  rewrite Z.leb_refl, andb_true_r in Hstop. exact Hstop.
Qed.

(** The animation effect stops the playback at the end. *)
Lemma flush_stops_at_end newArray c :
  currentStep (state c) = length_of (sortSteps (state c)) - 1 ->
  isPlaying (state (flush newArray c)) = false.
Proof.
  unfold flush. destruct c as [[a ss idx alg sp pl sz] t st rs]. simpl.
  intros ->. unfold animation_effect, steps_effect, reset_effect. simpl.
  rewrite Z.leb_refl.
  destruct pl, st, rs, (len a =? 0), alg; reflexivity.
Qed.

(** On a settled component the effects have nothing to do. *)
Lemma flush_settled newArray c : settled c -> flush newArray c = c.
Proof.
  destruct c as [[a ss idx alg sp pl sz] t st rs].
  intros (Hst & Hrs & Ht & Hstop). simpl in *. subst st rs.
  unfold flush. simpl. unfold animation_effect in *. simpl in *.
  rewrite Hstop.
  destruct (negb pl || _); simpl in Ht; now subst t.
Qed.


End ControllerInvariant.

(** ** Running the component on a script *)

Section ControllerRuns.

Import SortingVisualizer.

Lemma settledb_spec c : settledb c = true <-> settled c.
Proof.
  unfold settledb, settled. cbv zeta.
  rewrite !andb_true_iff, !negb_true_iff, Bool.eqb_true_iff. tauto.
Qed.

Lemma random_arrayb_sound size max newArray :
  random_arrayb size max newArray = true -> generateRandomArray size max newArray.
Proof.
  unfold random_arrayb, generateRandomArray.
  rewrite andb_true_iff, Nat.eqb_eq, forallb_forall, List.Forall_forall.
  intros [Hlen Hall]. split; [exact Hlen|].
  intros v Hv. specialize (Hall v Hv). lia.
Qed.

Lemma enabledb_sound e c : enabledb e c = true -> enabled e c.
Proof.
  destruct e; simpl; auto.
  - apply random_arrayb_sound.
  - intros H. lia.
  - intros H. lia.
  - apply negb_true_iff.
  - intros H. lia.
  - intros H. lia.
Qed.

Lemma allowedb_step a c : allowedb a c = true -> step c (perform a c).
Proof.
  destruct a as [e|newArray]; simpl; rewrite andb_true_iff; intros [H1 H2].
  - apply step_event; [now apply settledb_spec | now apply enabledb_sound].
  - apply step_flush; [|now apply random_arrayb_sound].
    rewrite <- settledb_spec. apply negb_true_iff in H1. now rewrite H1.
Qed.

Lemma run_reachable script : forall c c',
  reachable c -> run script c = Some c' -> reachable c'.
Proof.
  induction script as [|a rest IH]; simpl; intros c c' Hc Hrun.
  - now injection Hrun as <-.
  - destruct (allowedb a c) eqn:Ha; [|discriminate].
    apply (IH (perform a c)); [|exact Hrun].
    eapply reachable_step; [exact Hc | now apply allowedb_step].
Qed.

End ControllerRuns.

(** ** The current view *)

Section CurrentView.

Import SortingVisualizer.

Lemma current_or_outside {A : Type} (field : SortStep -> A) fallback s :
  currentStep s < 0 \/ length_of (sortSteps s) - 1 < currentStep s ->
  current_or field fallback s = Value fallback.
Proof.
  intros H. unfold current_or.
  destruct (Z.leb_spec 0 (currentStep s)); simpl; [|reflexivity].
  destruct (Z.ltb_spec (currentStep s) (length_of (sortSteps s))); [lia | reflexivity].
Qed.

(** Inside the guard the element is there: the view never faults. *)
Lemma current_or_inside {A : Type} (field : SortStep -> A) fallback s :
  0 <= currentStep s <= length_of (sortSteps s) - 1 ->
  exists st, sortSteps s !! Z.to_nat (currentStep s) = Some st /\
             current_or field fallback s = Value (field st).
Proof.
  intros H. unfold current_or.
  destruct (Z.leb_spec 0 (currentStep s)); [|lia].
  destruct (Z.ltb_spec (currentStep s) (length_of (sortSteps s))); [|lia]. simpl.
  destruct (lookup_lt_is_Some_2 (sortSteps s) (Z.to_nat (currentStep s))) as [st Hst].
  { unfold length_of in *. lia. }
  exists st. now rewrite Hst.
Qed.

End CurrentView.

(** ** The recorder on the heap shows what the recorder on values computes *)

(** Two interpretations of the recording operations that agree on what the
    working copy holds run the recorders in lockstep. *)
Section Lockstep.

Context {S1 S2 : Type} `{Recording S1} `{Recording S2}.
Variable sim : S1 -> S2 -> Prop.
Hypothesis sim_working : forall s t, sim s t -> working s = working t.
Hypothesis sim_push : forall c w s t, sim s t -> sim (push c w s) (push c w t).
Hypothesis sim_exchange : forall i j s t, sim s t -> sim (exchange i j s) (exchange i j t).

Lemma for_loop_lockstep {A B : Type} (rel : A -> B -> Prop) body1 body2 :
  (forall j a b, rel a b -> rel (body1 j a) (body2 j b)) ->
  forall count lo a b, rel a b -> rel (for_loop count lo body1 a) (for_loop count lo body2 b).
Proof.
  intros Hbody. induction count as [|c IH]; intros lo a b Hab; simpl; auto.
Qed.

Lemma bubble_body_lockstep j s t :
  sim s t -> sim (bubble_body j s) (bubble_body j t).
Proof.
  intros Hst. unfold bubble_body.
  pose proof (sim_push (Some (j, j + 1)) None s t Hst) as H1.
  rewrite (sim_working _ _ H1).
  destruct (_ >? _); auto.
Qed.

Lemma bubble_loops_lockstep n s t :
  sim s t -> sim (bubble_loops n s) (bubble_loops n t).
Proof.
  intros Hst. unfold bubble_loops, bubble_passes, for_range.
  apply (for_loop_lockstep sim); [|exact Hst].
  intros i a b Hab. unfold bubble_pass, for_range.
  apply (for_loop_lockstep sim); [|exact Hab].
  intros j. apply bubble_body_lockstep.
Qed.

Lemma partition_body_lockstep high pivot j x y :
  sim_indexed sim x y ->
  sim_indexed sim (partition_body high pivot j x) (partition_body high pivot j y).
Proof.
  destruct x as [i s], y as [i' t]. intros [Hi Hst]. simpl in Hi, Hst. subst i'.
  unfold partition_body.
  pose proof (sim_push (Some (j, high)) None s t Hst) as H1.
  rewrite (sim_working _ _ H1).
  destruct (_ <=? _); split; simpl; auto.
Qed.

Lemma partition_lockstep low high s t :
  sim s t -> sim_indexed sim (partition low high s) (partition low high t).
Proof.
  intros Hst. unfold partition. rewrite (sim_working _ _ Hst).
  assert (Hloop : sim_indexed sim
    (for_range low high (partition_body high (get (working t) high)) (low - 1, s))
    (for_range low high (partition_body high (get (working t) high)) (low - 1, t))).
  { unfold for_range. apply (for_loop_lockstep (sim_indexed sim)).
    - intros j. apply partition_body_lockstep.
    - split; [reflexivity | exact Hst]. }
  destruct (for_range low high _ (low - 1, s)) as [i s'].
  destruct (for_range low high _ (low - 1, t)) as [i' t'].
  destruct Hloop as [Hi Hst']. simpl in Hi, Hst'. subst i'.
  split; simpl; auto.
Qed.

Lemma quickSortHelper_lockstep low high :
  forall s t, sim s t -> sim (quickSortHelper low high s) (quickSortHelper low high t).
Proof.
  remember (Z.to_nat (high - low + 1)) as m eqn:Hm.
  revert low high Hm.
  induction m as [m IH] using lt_wf_ind. intros low high Hm s t Hst.
  rewrite !quickSortHelper_eq.
  destruct (Z.ltb_spec low high) as [Hlt|Hge]; [|exact Hst].
  pose proof (partition_lockstep low high s t Hst) as Hp.
  pose proof (partition_index_range low high s ltac:(lia)) as Hr.
  destruct (partition low high s) as [p s1].
  destruct (partition low high t) as [p' t1].
  destruct Hp as [Hpp Hs1]. simpl in Hpp, Hs1, Hr. subst p'. cbv zeta.
  apply (IH (Z.to_nat (high - (p + 1) + 1))); [lia | reflexivity |].
  apply (IH (Z.to_nat (p - 1 - low + 1))); [lia | reflexivity | exact Hs1].
Qed.

End Lockstep.

Section HeapRefinement.

#[local] Existing Instance Heap.HeapRecorder_recording.

Lemma read_app_l (h h' : Heap.heap) l : (l < length h)%nat -> Heap.read (h ++ h') l = Heap.read h l.
Proof. intros Hl. unfold Heap.read. now rewrite lookup_app_l. Qed.

Lemma read_alloc (h : Heap.heap) a : Heap.read (h ++ [a]) (length h) = a.
Proof. unfold Heap.read. now rewrite list_lookup_middle. Qed.

Lemma replay_ext (h h' : Heap.heap) tr :
  Forall (fun st => h' !! Heap.array_ref st = h !! Heap.array_ref st) tr ->
  replay h' tr = replay h tr.
Proof.
  unfold replay. induction 1 as [|st tr Hst _ IH]; simpl; [reflexivity|].
  rewrite IH. unfold Heap.snapshot, Heap.read. now rewrite Hst.
Qed.

Lemma represents_working h0 s t : represents h0 s t -> working s = working t.
Proof. intros (_ & Hw & _). simpl. now rewrite Hw. Qed.

Lemma represents_push h0 c w s t :
  represents h0 s t -> represents h0 (push c w s) (push c w t).
Proof.
  intros ([Hlo Hhi] & Hw & Hsteps & Hrefs & Hframe). simpl.
  unfold represents. simpl. rewrite length_app. simpl.
  split; [lia|]. split; [now rewrite read_app_l|]. split; [|split].
  - unfold replay in *. rewrite map_app. simpl. f_equal.
    + rewrite <- Hsteps. apply replay_ext.
      eapply Forall_impl; [exact Hrefs|]. intros st [Hst _]. simpl.
      now rewrite lookup_app_l.
    + unfold Heap.snapshot. simpl. now rewrite read_alloc, Hw.
  - rewrite Forall_app. split.
    + eapply Forall_impl; [exact Hrefs|]. intros st [Hst Hne]. simpl. split; [lia | exact Hne].
    + constructor; [|constructor]. simpl. split; lia.
  - intros l Hl. rewrite lookup_app_l by lia. now apply Hframe.
Qed.

Lemma represents_exchange h0 i j s t :
  represents h0 s t -> represents h0 (exchange i j s) (exchange i j t).
Proof.
  intros ([Hlo Hhi] & Hw & Hsteps & Hrefs & Hframe).
  unfold represents. simpl. unfold Heap.write. rewrite length_insert.
  split; [lia|]. split; [|split; [|split]].
  - unfold Heap.read at 1. rewrite list_lookup_insert_eq by lia. simpl. now rewrite Hw.
  - rewrite <- Hsteps. apply replay_ext.
    eapply Forall_impl; [exact Hrefs|]. intros st [_ Hne]. simpl.
    now rewrite list_lookup_insert_ne.
  - exact Hrefs.
  - intros l Hl. rewrite list_lookup_insert_ne by lia. now apply Hframe.
Qed.

(** Where both recorders start: the working copy has just been allocated. *)
Lemma represents_start (h : Heap.heap) A :
  represents h (mkRec A []) (Heap.mkHeapRec (h ++ [A]) (length h) []).
Proof.
  unfold represents. simpl. rewrite length_app. simpl.
  split; [lia|]. split; [apply read_alloc|]. split; [reflexivity|].
  split; [constructor|].
  intros l Hl. now rewrite lookup_app_l.
Qed.

Lemma represents_heap_run_ok h s t :
  represents h s t -> heap_run_ok h (steps s) (Heap.pushed t, Heap.store t).
Proof.
  intros ([Hlo Hhi] & _ & Hsteps & Hrefs & Hframe). unfold heap_run_ok.
  split; [exact Hsteps|]. split; [|split; [lia | exact Hframe]].
  eapply Forall_impl; [exact Hrefs|]. now intros st [Hst _].
Qed.

Lemma heap_bubbleSort_ok (h : Heap.heap) (inputArray : Heap.loc) :
  heap_run_ok h (bubbleSort (Heap.read h inputArray)) (Heap.bubbleSort h inputArray).
Proof.
  unfold Heap.bubbleSort, Heap.alloc. rewrite read_alloc.
  apply (represents_heap_run_ok h (bubble_run (Heap.read h inputArray))).
  unfold bubble_run.
  apply (bubble_loops_lockstep (represents h)).
  - apply represents_working.
  - apply represents_push.
  - apply represents_exchange.
  - apply represents_start.
Qed.

Lemma heap_quickSort_ok (h : Heap.heap) (inputArray : Heap.loc) :
  heap_run_ok h (quickSort (Heap.read h inputArray)) (Heap.quickSort h inputArray).
Proof.
  unfold Heap.quickSort, Heap.alloc. rewrite read_alloc.
  apply (represents_heap_run_ok h (quick_run (Heap.read h inputArray))).
  unfold quick_run.
  apply (quickSortHelper_lockstep (represents h)).
  - apply represents_working.
  - apply represents_push.
  - apply represents_exchange.
  - apply represents_start.
Qed.

(** Running a recorder, then running it again on the same input object. *)
Lemma run_twice (recorder : Heap.heap -> Heap.loc -> list Heap.RefStep * Heap.heap) (f : list Z -> list SortStep) :
  (forall h inputArray, heap_run_ok h (f (Heap.read h inputArray)) (recorder h inputArray)) ->
  forall h inputArray A,
    h !! inputArray = Some A ->
    runs_identically recorder f h inputArray A.
Proof.
  intros Hok h inputArray A HA. unfold runs_identically.
  pose proof (Hok h inputArray) as H1.
  destruct (recorder h inputArray) as [tr1 h1].
  pose proof (Hok h1 inputArray) as H2.
  destruct (recorder h1 inputArray) as [tr2 h2].
  destruct H1 as (E1 & R1 & L1 & F1). destruct H2 as (E2 & R2 & L2 & F2).
  assert (Hin : (inputArray < length h)%nat) by (eapply lookup_lt_Some; eauto).
  assert (HA1 : h1 !! inputArray = Some A) by (rewrite F1; auto).
  assert (HA2 : h2 !! inputArray = Some A) by (rewrite F2; auto; lia).
  assert (Hr : Heap.read h inputArray = A) by (unfold Heap.read; now rewrite HA).
  assert (Hr1 : Heap.read h1 inputArray = A) by (unfold Heap.read; now rewrite HA1).
  rewrite Hr in E1. rewrite Hr1 in E2.
  assert (Hkeep : replay h2 tr1 = replay h1 tr1).
  { apply replay_ext.
    eapply Forall_impl; [exact R1|]. intros st Hst. simpl. now apply F2. }
  repeat split; auto; congruence.
Qed.

End HeapRefinement.

(** ** Arrays of two or more elements yield steps *)

Lemma records_steps_nonempty R (s t : Recorder) :
  records R s t -> steps s <> [] -> steps t <> [].
Proof.
  intros (tr & E & _) Hs. rewrite E. destruct (steps s); [congruence | discriminate].
Qed.

Lemma partition_pushes low high (s : Recorder) :
  steps (snd (partition low high s)) <> [].
Proof.
  unfold partition. destruct (for_range low high _ _) as [i t]. simpl.
  destruct (steps t); discriminate.
Qed.

Lemma bubbleSort_nonempty A : 2 <= len A -> bubbleSort A <> [].
Proof.
  intros Hn Hnil.
  pose proof (bubble_run_frames A) as H. cbv zeta in H.
  unfold frames_since in H. simpl in H.
  change (steps (bubble_run A)) with (bubbleSort A) in H. rewrite Hnil in H.
  unfold step_count, count_frames in H. simpl in H.
  destruct H as (Hc & _ & _ & _). specialize (Hc ltac:(lia)). nia.
Qed.

Lemma quickSort_nonempty A : 2 <= len A -> quickSort A <> [].
Proof.
  intros Hn. unfold quickSort, quick_run. rewrite quickSortHelper_eq.
  destruct (Z.ltb_spec 0 (len A - 1)) as [Hlt|Hge]; [|lia].
  pose proof (partition_pushes 0 (len A - 1) (mkRec A [])) as Hpush.
  pose proof (partition_records 0 (len A - 1) (mkRec A []) ltac:(lia) ltac:(lia)
                ltac:(simpl; lia)) as Hrec.
  pose proof (partition_index_range 0 (len A - 1) (mkRec A []) ltac:(lia)) as Hp.
  destruct (partition 0 (len A - 1) (mkRec A [])) as [p s1]. simpl in Hpush, Hrec, Hp.
  pose proof (records_len _ _ _ Hrec) as L1. simpl in L1. cbv zeta.
  pose proof (quickSortHelper_records 0 (p - 1) s1 ltac:(lia) ltac:(lia)) as H1.
  pose proof (records_len _ _ _ H1) as L2.
  assert (H2 : records (between (p + 1) (len A - 1)) (quickSortHelper 0 (p - 1) s1)
                 (quickSortHelper (p + 1) (len A - 1) (quickSortHelper 0 (p - 1) s1)))
    by (apply quickSortHelper_records; lia).
  eapply records_steps_nonempty; [exact H2|].
  eapply records_steps_nonempty; [exact H1 | exact Hpush].
Qed.

(** ** More about [partition] and [quickSortHelper] *)

(** The array after [partition]: the pivot value, which was at [high], is at
    the returned index; the values of [low..high] before it are at most the
    pivot and those after it are larger. *)
Lemma partition_pivot_strict low high (s : Recorder) :
  0 <= low -> low <= high -> high < len (arr s) ->
  let r := partition low high s in
  get (arr (snd r)) (fst r) = get (arr s) high /\
  (forall k, low <= k -> k < fst r -> get (arr (snd r)) k <= get (arr s) high) /\
  (forall k, fst r < k -> k <= high -> get (arr s) high < get (arr (snd r)) k).
Proof.
  intros Hlow Hle Hh. unfold partition.
  pose proof (for_range_inv
    (partitioned low high (get (arr s) high) (len (arr s)))
    (partition_body high (get (arr s) high)) low high (low - 1, s) Hle) as H.
  destruct (for_range low high _ _) as [i t].
  destruct H as (Hi & Hlen & Hpiv & Hsmall & Hbig).
  - simpl. repeat split; auto; intros; lia.
  - intros j st Hj. apply partition_body_partitioned; lia.
  - simpl. split; [|split].
    + rewrite get_swap by lia. case_eqb; first [exact Hpiv | lia].
    + intros k Hk1 Hk2. rewrite get_swap by lia.
      case_eqb; first [lia | apply Hsmall; lia].
    + intros k Hk1 Hk2. rewrite get_swap by lia.
      case_eqb; first [lia | apply Hbig; lia].
Qed.

(** ** Replaying a sequence from its highlights *)

Lemma trace_arrays_from R a tr b :
  trace_from R a tr b -> map array tr = arrays_from a (map swapping tr).
Proof.
  induction 1 as [a | a j k tr b Hj Hjk Hk HC _ IH | a i j tr b Hi Hj HR _ IH]; simpl.
  - reflexivity.
  - now rewrite IH.
  - now rewrite IH, swap_exchanged.
Qed.

(** ** The comparisons of bubble sort and what follows them *)

Lemma bubble_trace_app a tr1 b tr2 c :
  bubble_trace a tr1 b -> bubble_trace b tr2 c -> bubble_trace a (tr1 ++ tr2) c.
Proof.
  induction 1; intros H2; simpl; [exact H2 | |].
  - apply bubble_keep; auto.
  - apply bubble_exchange; auto.
Qed.

Lemma bubble_records_refl s : bubble_records s s.
Proof. exists []. split; [now rewrite app_nil_r | constructor]. Qed.

Lemma bubble_records_trans s t u :
  bubble_records s t -> bubble_records t u -> bubble_records s u.
Proof.
  intros (tr1 & E1 & H1) (tr2 & E2 & H2). exists (tr1 ++ tr2). split.
  - now rewrite E2, E1, app_assoc.
  - eapply bubble_trace_app; eauto.
Qed.

Lemma bubble_body_bubble_records j (s : Recorder) : bubble_records s (bubble_body j s).
Proof.
  unfold bubble_body. simpl.
  destruct (Z.gtb_spec (get (arr s) j) (get (arr s) (j + 1))) as [Hgt|Hle].
  - eexists. split.
    + simpl. rewrite <- !app_assoc. reflexivity.
    + simpl. apply bubble_exchange; [lia | constructor].
  - eexists. split; [reflexivity|]. simpl. apply bubble_keep; [lia | constructor].
Qed.

Lemma for_range_closure {S : Type} (rel : S -> S -> Prop) (body : Z -> S -> S) lo hi s :
  (forall t, rel t t) -> (forall t u v, rel t u -> rel u v -> rel t v) ->
  (forall j t, rel t (body j t)) ->
  rel s (for_range lo hi body s).
Proof.
  intros Hrefl Htrans Hbody.
  destruct (Z_le_gt_dec lo hi) as [Hle|Hgt].
  - apply (for_range_inv (fun _ t => rel s t) body lo hi s Hle); [apply Hrefl|].
    intros j t _ Ht. eapply Htrans; [exact Ht | apply Hbody].
  - rewrite for_range_empty by lia. apply Hrefl.
Qed.

Lemma bubble_passes_bubble_records n i (s : Recorder) :
  bubble_records s (bubble_passes n i s).
Proof.
  unfold bubble_passes.
  apply (for_range_closure bubble_records);
    [apply bubble_records_refl | apply bubble_records_trans|].
  intros k t. unfold bubble_pass.
  apply (for_range_closure bubble_records);
    [apply bubble_records_refl | apply bubble_records_trans|].
  intros j u. apply bubble_body_bubble_records.
Qed.

Lemma bubbleSort_bubble_trace A :
  bubble_trace A (bubbleSort A) (arr (bubble_run A)).
Proof.
  destruct (bubble_passes_bubble_records (len A) (len A - 1) (mkRec A []))
    as (tr & E & H).
  simpl in E. unfold bubbleSort, bubble_run, bubble_loops. now rewrite E.
Qed.

Lemma bubble_trace_swaps_justified a tr b :
  bubble_trace a tr b -> swaps_are_justified tr.
Proof.
  induction 1 as [a | a j tr b Hle _ IH | a j tr b Hlt _ IH]; intros k st p q Hk Hsw.
  - discriminate.
  - destruct k as [|k]; simpl in Hk.
    + injection Hk as <-. discriminate.
    + destruct (IH k st p q Hk Hsw) as (Hinv & k' & -> & Hk').
      split; [exact Hinv|]. exists (Datatypes.S k'). auto.
  - destruct k as [|[|[|k]]]; simpl in Hk.
    + injection Hk as <-. discriminate.
    + injection Hk as <-. simpl in Hsw. injection Hsw as <- <-. simpl.
      split; [exact Hlt|]. exists 0%nat. auto.
    + injection Hk as <-. discriminate.
    + destruct (IH k st p q Hk Hsw) as (Hinv & k' & -> & Hk').
      split; [exact Hinv|]. exists (Datatypes.S (Datatypes.S (Datatypes.S k'))). auto.
Qed.

Lemma bubble_trace_head_not_swap a tr b st :
  bubble_trace a tr b -> tr !! 0%nat = Some st -> swapping st = None.
Proof.
  intros H Hst. destruct H; simpl in Hst; try discriminate; now injection Hst as <-.
Qed.

Lemma bubble_trace_comparisons_acted_on a tr b :
  bubble_trace a tr b -> comparisons_are_acted_on tr.
Proof.
  induction 1 as [a | a j tr b Hle Htr IH | a j tr b Hlt Htr IH]; intros k st p q Hk Hc.
  - discriminate.
  - destruct k as [|k]; simpl in Hk.
    + injection Hk as <-. simpl in Hc. injection Hc as <- <-. simpl.
      destruct (Z.gtb_spec (get a j) (get a (j + 1))); [lia|].
      intros st' Hst'. eapply bubble_trace_head_not_swap; eauto.
    + exact (IH k st p q Hk Hc).
  - destruct k as [|[|[|k]]]; simpl in Hk.
    + injection Hk as <-. simpl in Hc. injection Hc as <- <-. simpl.
      destruct (Z.gtb_spec (get a j) (get a (j + 1))); [reflexivity | lia].
    + injection Hk as <-. discriminate.
    + injection Hk as <-. discriminate.
    + exact (IH k st p q Hk Hc).
Qed.

(** ** Reads and list positions *)

Lemma lookup_get (a : list Z) (i : nat) x :
  a !! i = Some x -> get a (Z.of_nat i) = x /\ 0 <= Z.of_nat i < len a.
Proof.
  intros Hx. pose proof (lookup_lt_Some _ _ _ Hx) as Hlt.
  assert (Hr : 0 <= Z.of_nat i < len a) by (unfold len; lia).
  split; [|exact Hr].
  pose proof (get_lookup a (Z.of_nat i) Hr) as Hg.
  rewrite Nat2Z.id in Hg. congruence.
Qed.

Lemma StronglySorted_lookup_intro (l : list Z) :
  (forall (i j : nat) x y, (i < j)%nat -> l !! i = Some x -> l !! j = Some y -> x <= y) ->
  StronglySorted Z.le l.
Proof.
  induction l as [|x l IH]; intros H; constructor.
  - apply IH. intros i j u v Hij Hu Hv.
    apply (H (Datatypes.S i) (Datatypes.S j) u v); [lia | exact Hu | exact Hv].
  - apply Forall_lookup. intros j y Hy.
    apply (H 0%nat (Datatypes.S j) x y); [lia | reflexivity | exact Hy].
Qed.


(** ** Bubble sort on an ascending array *)









(** ** After [k] passes of bubble sort *)

Lemma after_passes_records A k :
  0 <= k -> records adjacent (mkRec A []) (after_passes A k).
Proof.
  intros Hk. unfold after_passes, bubble_passes.
  apply (for_range_inv (fun _ t => records adjacent (mkRec A []) t)
           (bubble_pass (len A)) 0 k _ Hk).
  - apply records_refl.
  - intros i t Hi Ht. eapply records_trans; [exact Ht|].
    apply bubble_pass_records; [|lia].
    now rewrite (records_len _ _ _ Ht).
Qed.

Lemma after_passes_settled A k :
  0 <= k -> k <= len A - 1 -> settled_tail (len A) k (arr (after_passes A k)).
Proof.
  intros Hk Hkn. unfold after_passes, bubble_passes.
  apply (for_range_inv (fun i t => settled_tail (len A) i (arr t))
           (bubble_pass (len A)) 0 k _ Hk).
  - split; [reflexivity|]. simpl. intros. lia.
  - intros i t Hi Ht. apply bubble_pass_inv; auto; lia.
Qed.

Lemma StronglySorted_append (l1 l2 : list Z) :
  (forall x y, x ∈ l1 -> y ∈ l2 -> x <= y) ->
  StronglySorted Z.le l1 -> StronglySorted Z.le l2 ->
  StronglySorted Z.le (l1 ++ l2).
Proof.
  intros Hcross H1 H2. induction H1 as [|x l1 Hs IH Hx]; simpl; [exact H2|].
  constructor.
  - apply IH. intros u v Hu Hv. apply Hcross; [now right | exact Hv].
  - apply Forall_app. split; [exact Hx|].
    apply Forall_forall. intros y Hy. apply Hcross; [now left | exact Hy].
Qed.

(** An array whose last [k] positions each hold a value that is at least
    every value before it has its last [k] values where the ascending sort
    has them. *)
Lemma settled_tail_final (A b : list Z) (k : Z) :
  Permutation A b -> 0 <= k <= len b -> settled_tail (len b) k b ->
  forall q, len b - k <= q < len b -> get b q = get (ascending_sort A) q.
Proof.
  intros HP Hk [_ Htail] q Hq.
  set (m := Z.to_nat (len b - k)).
  assert (Hm : (m <= length b)%nat) by (unfold m, len in *; lia).
  (* the values of two positions, the second in the tail *)
  assert (Hord : forall (i j : nat) x y,
             (i < j)%nat -> (m <= j)%nat -> b !! i = Some x -> b !! j = Some y -> x <= y).
  { intros i j x y Hij Hmj Hx Hy.
    destruct (lookup_get _ _ _ Hx) as [<- Hi]. destruct (lookup_get _ _ _ Hy) as [<- Hj].
    apply Htail; unfold m in *; lia. }
  assert (Hsorted : StronglySorted Z.le (ascending_sort (take m b) ++ drop m b)).
  { apply StronglySorted_append.
    - intros x y Hx Hy.
      assert (Hx' : x ∈ take m b).
      { rewrite (ascending_sort_Permutation (take m b)). exact Hx. }
      apply elem_of_take in Hx' as (i & Hi & Him).
      apply list_elem_of_lookup in Hy as (j & Hj). rewrite lookup_drop in Hj.
      apply (Hord i (m + j)%nat x y); auto; lia.
    - apply ascending_sort_sorted.
    - apply StronglySorted_lookup_intro. intros i j x y Hij Hx Hy.
      rewrite lookup_drop in Hx, Hy.
      apply (Hord (m + i)%nat (m + j)%nat x y); auto; lia. }
  assert (Hperm : Permutation (ascending_sort A) (ascending_sort (take m b) ++ drop m b)).
  { rewrite <- (ascending_sort_Permutation A), <- (ascending_sort_Permutation (take m b)).
    now rewrite take_drop. }
  assert (Heq : ascending_sort A = ascending_sort (take m b) ++ drop m b).
  { apply ascending_unique; auto using ascending_sort_sorted. }
  assert (Hlen : len (ascending_sort A) = len b).
  { unfold len. f_equal. apply Permutation_length.
    rewrite <- (ascending_sort_Permutation A). now symmetry. }
  assert (Hlenpre : length (ascending_sort (take m b)) = m).
  { rewrite <- (Permutation_length (ascending_sort_Permutation (take m b))).
    now apply length_take_le. }
  pose proof (get_lookup b q ltac:(lia)) as Hb.
  pose proof (get_lookup (ascending_sort A) q ltac:(lia)) as Hs.
  rewrite Heq in Hs at 1.
  rewrite lookup_app_r in Hs by (rewrite Hlenpre; unfold m; lia).
  rewrite Hlenpre, lookup_drop in Hs.
  replace (m + (Z.to_nat q - m))%nat with (Z.to_nat q) in Hs by (unfold m; lia).
  congruence.
Qed.

(** ** Counting the frames of quick sort *)

Lemma count_frames_one f st : count_frames f [st] = if f st then 1 else 0.
Proof. unfold count_frames. simpl. now destruct (f st). Qed.

Lemma step_count_one st : step_count [st] = 1.
Proof. reflexivity. Qed.

Lemma partition_body_frames high pivot j i (t : Recorder) :
  let u := snd (partition_body high pivot j (i, t)) in
  exists d, 0 <= d <= 1 /\
    step_count (steps u) = step_count (steps t) + 1 + 2 * d /\
    count_frames is_comparing (steps u) = count_frames is_comparing (steps t) + 1 /\
    count_frames is_swapping (steps u) = count_frames is_swapping (steps t) + d.
Proof.
  unfold partition_body. simpl. destruct (_ <=? _); simpl.
  - exists 1. rewrite !step_count_app, !count_frames_app.
    unfold step_count, count_frames. simpl. lia.
  - exists 0. rewrite !step_count_app, !count_frames_app.
    unfold step_count, count_frames. simpl. lia.
Qed.

(** One call of [partition] on [low..high]: [high - low] comparisons, and
    between one and [high - low + 1] swaps. *)
Lemma partition_frames low high (s : Recorder) :
  low <= high ->
  let '(total, cmp, swp) := frames_since s (snd (partition low high s)) in
  cmp = high - low /\ 1 <= swp <= high - low + 1 /\ total = cmp + 2 * swp.
Proof.
  intros Hle. unfold partition.
  pose proof (for_range_inv
    (fun j (st : Z * Recorder) =>
       let '(total, cmp, swp) := frames_since s (snd st) in
       cmp = j - low /\ 0 <= swp <= j - low /\ total = cmp + 2 * swp)
    (partition_body high (get (arr s) high)) low high (low - 1, s) Hle) as H.
  destruct (for_range low high _ _) as [i t]. simpl in H.
  unfold frames_since in *. simpl.
  destruct H as (Hc & Hs & Ht).
  - lia.
  - intros j [i0 u] Hj Hinv.
    pose proof (partition_body_frames high (get (arr s) high) j i0 u) as Hbody.
    cbv zeta in Hbody.
    destruct (partition_body high (get (arr s) high) j (i0, u)) as [i1 u1].
    simpl in Hbody, Hinv |- *. destruct Hbody as (d & Hd & E1 & E2 & E3).
    rewrite E1, E2, E3. lia.
  - rewrite !step_count_app, !count_frames_app, !count_frames_one, !step_count_one.
    simpl. lia.
Qed.

Lemma quickSortHelper_frames low high (s : Recorder) :
  quick_tally (Z.max 0 (high - low + 1)) (frames_since s (quickSortHelper low high s)).
Proof.
  revert s.
  apply (quickSortHelper_rect (fun low high s t =>
    quick_tally (Z.max 0 (high - low + 1)) (frames_since s t))).
  - intros l h s Hge. unfold quick_tally, frames_since.
    assert (Hm : Z.max 0 (h - l + 1) = 0 \/ Z.max 0 (h - l + 1) = 1) by lia.
    destruct Hm as [-> | ->]; lia.
  - intros l h s p s1 Hlt Hp Hr IH1 IH2.
    pose proof (partition_frames l h s ltac:(lia)) as Hpart.
    rewrite Hp in Hpart. simpl in Hpart.
    set (t1 := quickSortHelper l (p - 1) s1) in *.
    set (t2 := quickSortHelper (p + 1) h t1) in *.
    replace (Z.max 0 (p - 1 - l + 1)) with (p - l) in IH1 by lia.
    replace (Z.max 0 (h - (p + 1) + 1)) with (h - p) in IH2 by lia.
    replace (Z.max 0 (h - l + 1)) with (h - l + 1) by lia.
    unfold quick_tally, frames_since in *.
    destruct Hpart as (Pc & Ps & Pt).
    destruct IH1 as (A0 & Ac & As & At). destruct IH2 as (B0 & Bc & Bs & Bt).
    set (a := p - l) in *. set (b := h - p) in *.
    assert (Hab : h - l = a + b) by (unfold a, b; lia).
    assert (Ha : 0 <= a) by (unfold a; lia).
    assert (Hb : 0 <= b) by (unfold b; lia).
    rewrite Hab in *.
    repeat split; try lia; try nia.
Qed.

(** ** Each step owns its copy *)

Section HeapOwnership.

#[local] Existing Instance Heap.HeapRecorder_recording.

Lemma represents_owning_push h0 c w s t :
  represents_owning h0 s t -> represents_owning h0 (push c w s) (push c w t).
Proof.
  intros [Hrep [Hnd Hfresh]]. split; [now apply represents_push|].
  destruct Hrep as ([Hlo Hhi] & _ & _ & Hrefs & _).
  unfold owns_fresh_copies. simpl. rewrite map_app. simpl. split.
  - apply NoDup_app. split; [exact Hnd|]. split; [|apply NoDup_singleton].
    intros l Hl Hnew. apply list_elem_of_singleton in Hnew. subst l.
    apply list_elem_of_fmap in Hl as (st & Heq & Hst).
    rewrite Forall_forall in Hrefs. destruct (Hrefs st Hst) as [Hlt _]. lia.
  - apply Forall_app. split; [exact Hfresh|]. constructor; [simpl; lia | constructor].
Qed.

Lemma represents_owning_exchange h0 i j s t :
  represents_owning h0 s t -> represents_owning h0 (exchange i j s) (exchange i j t).
Proof. intros [Hrep Hown]. split; [now apply represents_exchange | exact Hown]. Qed.

Lemma represents_owning_working h0 s t :
  represents_owning h0 s t -> working s = working t.
Proof. intros [Hrep _]. eapply represents_working; eauto. Qed.

Lemma represents_owning_start (h : Heap.heap) A :
  represents_owning h (mkRec A []) (Heap.mkHeapRec (h ++ [A]) (length h) []).
Proof.
  split; [apply represents_start|]. split; [apply NoDup_nil_2 | constructor].
Qed.

Lemma represents_owning_result h s t :
  represents_owning h s t -> steps_own_their_arrays h (Heap.pushed t, Heap.store t).
Proof.
  intros [Hrep [Hnd Hfresh]]. destruct Hrep as (_ & _ & _ & Hrefs & _).
  split; [exact Hnd|].
  rewrite Forall_forall in *. intros st Hst. split.
  - apply lookup_ge_None. specialize (Hfresh st Hst). simpl in Hfresh. lia.
  - apply lookup_lt_is_Some. now destruct (Hrefs st Hst).
Qed.

Lemma heap_bubbleSort_owns (h : Heap.heap) (inputArray : Heap.loc) :
  steps_own_their_arrays h (Heap.bubbleSort h inputArray).
Proof.
  unfold Heap.bubbleSort, Heap.alloc. rewrite read_alloc.
  apply (represents_owning_result h (bubble_run (Heap.read h inputArray))).
  unfold bubble_run.
  apply (bubble_loops_lockstep (represents_owning h)).
  - apply represents_owning_working.
  - apply represents_owning_push.
  - apply represents_owning_exchange.
  - apply represents_owning_start.
Qed.

Lemma heap_quickSort_owns (h : Heap.heap) (inputArray : Heap.loc) :
  steps_own_their_arrays h (Heap.quickSort h inputArray).
Proof.
  unfold Heap.quickSort, Heap.alloc. rewrite read_alloc.
  apply (represents_owning_result h (quick_run (Heap.read h inputArray))).
  unfold quick_run.
  apply (quickSortHelper_lockstep (represents_owning h)).
  - apply represents_owning_working.
  - apply represents_owning_push.
  - apply represents_owning_exchange.
  - apply represents_owning_start.
Qed.

End HeapOwnership.

(** ** What the component keeps between its array, its steps and its size *)

Section ComponentInvariants.

Import SortingVisualizer.

Lemma len_zero_nil (a : list Z) : len a = 0 <-> a = [].
Proof.
  unfold len. split; [|now intros ->].
  destruct a; [reflexivity | simpl; lia].
Qed.

Lemma handle_steps_belong e c :
  steps_belong c -> steps_belong (handle e c).
Proof.
  destruct c as [[a ss idx alg sp pl sz] t st rs].
  unfold steps_belong. simpl. intros (H1 & H2 & H3).
  destruct e; simpl; try (split; [exact H1 | split; [exact H2 | exact H3]]).
  - (* ClickGenerate *) split; [now left|]. split; [reflexivity | discriminate].
  - (* SelectAlgorithm *) split; [exact H1|]. split; [exact H2|].
    intros Hst Hne. apply orb_false_iff in Hst as [Hst Halg].
    apply negb_false_iff in Halg.
    assert (a0 = alg) by (destruct a0, alg; simpl in Halg; congruence). subst a0. auto.
  - (* ClickPlay *) unfold startSort. simpl.
    destruct (_ <=? _); simpl; auto.
Qed.

Lemma flush_steps_belong newArray c :
  steps_belong c -> steps_belong (flush newArray c).
Proof.
  destruct c as [[a ss idx alg sp pl sz] t st rs].
  unfold steps_belong, flush, animation_effect, steps_effect, reset_effect, resetArray.
  simpl. intros (H1 & H2 & H3).
  destruct rs; simpl.
  - destruct pl, (length_of ss - 1 <=? idx), st, (len a =? 0); simpl;
      (split; [now left | split; [reflexivity | discriminate]]).
  - destruct (Z.eqb_spec (len a) 0) as [Hz|Hnz].
    + apply len_zero_nil in Hz.
      destruct pl, (length_of ss - 1 <=? idx), st; simpl;
        (split; [exact H1 | split; [exact H2 | intros _ Hne; congruence]]).
    + assert (Hne : a <> []) by (intros ->; apply Hnz; reflexivity).
      destruct pl, (length_of ss - 1 <=? idx), st; simpl;
        (split; [| split; [intros; contradiction | intros _ _]]);
        first [ exact H1 | now apply H3
              | right; exists alg; destruct alg; reflexivity
              | destruct alg; reflexivity ].
Qed.

Lemma reachable_steps_belong c : reachable c -> steps_belong c.
Proof.
  induction 1 as [|c c' _ IH Hstep].
  - unfold steps_belong. simpl. split; [now left|]. split; [reflexivity | congruence].
  - destruct Hstep; [now apply handle_steps_belong | now apply flush_steps_belong].
Qed.

Lemma handle_array_fits_size e c :
  enabled e c -> array_fits_size c -> array_fits_size (handle e c).
Proof.
  destruct c as [[a ss idx alg sp pl sz] t st rs].
  unfold array_fits_size. simpl. intros Hen [Hsz Harr].
  destruct e; simpl in *; try (split; [exact Hsz | exact Harr]).
  - split; [exact Hsz | intros _; exact Hen].
  - split; [exact Hen|]. intros Hrs. apply orb_false_iff in Hrs as [Hrs Hn].
    apply negb_false_iff in Hn. apply Z.eqb_eq in Hn. subst n. auto.
  - unfold startSort. simpl. destruct (_ <=? _); simpl; auto.
Qed.

Lemma flush_array_fits_size newArray c :
  generateRandomArray (arraySize (state c)) 100 newArray ->
  array_fits_size c -> array_fits_size (flush newArray c).
Proof.
  destruct c as [[a ss idx alg sp pl sz] t st rs].
  unfold array_fits_size, flush, animation_effect, steps_effect, reset_effect, resetArray.
  simpl. intros Hnew [Hsz Harr].
  destruct rs; simpl.
  - destruct pl, (length_of ss - 1 <=? idx), st, (len a =? 0); simpl; auto.
  - destruct pl, (length_of ss - 1 <=? idx), st, (len a =? 0); simpl; auto.
Qed.

Lemma reachable_array_fits_size c : reachable c -> array_fits_size c.
Proof.
  induction 1 as [|c c' _ IH Hstep].
  - unfold array_fits_size. simpl. split; [lia | discriminate].
  - destruct Hstep; [now apply handle_array_fits_size | now apply flush_array_fits_size].
Qed.

End ComponentInvariants.

(** ** The view of recorded steps *)

Section RecordedView.

Import SortingVisualizer.

(** What holds of every step either recorder returns. *)
Lemma recorder_of_steps a A :
  Forall (fun st => not_both st /\ frame_indices_ok ordered (len A) st /\
                    Permutation A (step_array st))
         (recorder_of a A).
Proof.
  assert (H : exists b, trace_from ordered A (recorder_of a A) b).
  { destruct a; simpl.
    - exists (arr (bubble_run A)).
      apply (trace_from_mono adjacent); [|apply bubbleSort_trace].
      unfold adjacent, ordered. lia.
    - exists (arr (quick_run A)). apply quickSort_trace. }
  destruct H as [b Ht].
  pose proof (trace_not_both _ _ _ _ Ht) as H1.
  pose proof (trace_indices _ _ _ _ Ht) as H2.
  pose proof (proj2 (trace_Permutation _ _ _ _ Ht)) as H3.
  rewrite Forall_forall in *. intros st Hst. auto.
Qed.

Lemma recorder_of_last a A st :
  last (recorder_of a A) = Some st -> step_array st = ascending_sort A.
Proof.
  destruct a; simpl; intros Hlast.
  - unfold step_array. rewrite (trace_last _ _ _ _ _ (bubbleSort_trace A) Hlast).
    apply bubble_run_sorted.
  - unfold step_array. rewrite (trace_last _ _ _ _ _ (quickSort_trace A) Hlast).
    apply quick_run_sorted.
Qed.

(** The step the view reads, when [currentStep] is in range. *)
Lemma current_step_inside (s : State) :
  0 <= currentStep s <= length_of (sortSteps s) - 1 ->
  exists st, sortSteps s !! Z.to_nat (currentStep s) = Some st /\
    currentArray s = Value (step_array st) /\
    currentComparing s = Value (step_comparing st) /\
    currentSwapping s = Value (step_swapping st).
Proof.
  intros H. unfold currentArray, currentComparing, currentSwapping, current_or.
  destruct (Z.leb_spec 0 (currentStep s)); [|lia].
  destruct (Z.ltb_spec (currentStep s) (length_of (sortSteps s))); [|lia]. simpl.
  destruct (lookup_lt_is_Some_2 (sortSteps s) (Z.to_nat (currentStep s))) as [st Hst].
  { unfold length_of in *. lia. }
  exists st. rewrite Hst. auto.
Qed.

Lemma current_view_outside (s : State) :
  ~ 0 <= currentStep s <= length_of (sortSteps s) - 1 ->
  currentArray s = Value (array s) /\
  currentComparing s = Value None /\ currentSwapping s = Value None.
Proof.
  intros H. unfold currentArray, currentComparing, currentSwapping, current_or.
  destruct (Z.leb_spec 0 (currentStep s)); simpl; [|auto].
  destruct (Z.ltb_spec (currentStep s) (length_of (sortSteps s))); [lia | auto].
Qed.

Lemma steps_belong_step c st :
  steps_belong c -> st ∈ sortSteps (state c) ->
  not_both st /\ frame_indices_ok ordered (len (array (state c))) st /\
  Permutation (array (state c)) (step_array st).
Proof.
  intros ([Hnil | [a Ha]] & _ & _) Hst.
  - rewrite Hnil in Hst. now apply not_elem_of_nil in Hst.
  - rewrite Ha in Hst.
    pose proof (recorder_of_steps a (array (state c))) as Hall.
    rewrite Forall_forall in Hall. now apply Hall.
Qed.

Lemma view_permutes_array c :
  steps_belong c ->
  exists v, currentArray (state c) = Value v /\ Permutation (array (state c)) v.
Proof.
  intros Hb. set (s := state c).
  destruct (Z_le_dec 0 (currentStep s)) as [H0|H0];
    [destruct (Z_le_dec (currentStep s) (length_of (sortSteps s) - 1)) as [H1|H1]|].
  - destruct (current_step_inside s (conj H0 H1)) as (st & Hst & Ha & _).
    exists (step_array st). split; [exact Ha|].
    apply (steps_belong_step c st Hb). eapply list_elem_of_lookup_2; eauto.
  - exists (array s). split; [|reflexivity]. apply current_view_outside. lia.
  - exists (array s). split; [|reflexivity]. apply current_view_outside. lia.
Qed.

Lemma view_at_end_sorted c :
  steps_belong c -> sortSteps (state c) <> [] ->
  currentStep (state c) = length_of (sortSteps (state c)) - 1 ->
  currentArray (state c) = Value (ascending_sort (array (state c))).
Proof.
  intros ([Hnil | [a Ha]] & _ & _) Hne Hend; [contradiction|].
  set (s := state c) in *.
  assert (Hlen : 1 <= length_of (sortSteps s)).
  { unfold length_of. destruct (sortSteps s); [contradiction | simpl; lia]. }
  destruct (current_step_inside s ltac:(lia)) as (st & Hst & Hview & _).
  rewrite Hview. f_equal. apply (recorder_of_last a). rewrite <- Ha.
  rewrite last_lookup, <- Hst. f_equal. rewrite Hend. unfold length_of. lia.
Qed.

(** The colour of a bar while a recorded step is shown. *)
Lemma bar_colour_of_step c index :
  steps_belong c ->
  0 <= currentStep (state c) <= length_of (sortSteps (state c)) - 1 ->
  exists st col,
    sortSteps (state c) !! Z.to_nat (currentStep (state c)) = Some st /\
    getBarColor (state c) index = Value col /\
    (col = bg_red_500 <->
       exists p q, step_swapping st = Some (p, q) /\ (index = p \/ index = q)) /\
    (col = bg_yellow_400 <->
       exists p q, step_comparing st = Some (p, q) /\ (index = p \/ index = q)) /\
    (col <> bg_blue_500 -> 0 <= index < len (array (state c))).
Proof.
  intros Hb Hin.
  destruct (current_step_inside (state c) Hin) as (st & Hst & _ & Hc & Hw).
  destruct (steps_belong_step c st Hb) as (Hnb & [Hci Hwi] & _).
  { eapply list_elem_of_lookup_2; eauto. }
  unfold getBarColor. rewrite Hc, Hw.
  exists st, (getBarColor_of (step_swapping st) (step_comparing st) index).
  split; [exact Hst|]. split; [reflexivity|].
  unfold step_swapping, step_comparing, not_both in *.
  destruct (swapping st) as [[p q]|] eqn:Ew, (comparing st) as [[p' q']|] eqn:Ec;
    try (destruct Hnb; discriminate); simpl.
  - specialize (Hwi p q eq_refl).
    destruct (Z.eqb_spec index p), (Z.eqb_spec index q); simpl;
      (split; [|split]);
      try (split; [intros _; exists p, q; split; [reflexivity | lia] | reflexivity]);
      try (split; [discriminate | intros (? & ? & E & ?); discriminate E]);
      try (split; [discriminate | intros (p0 & q0 & E & Hor); injection E as <- <-; lia]);
      try (intros _; lia); try congruence.
  - specialize (Hci p' q' eq_refl).
    destruct (Z.eqb_spec index p'), (Z.eqb_spec index q'); simpl;
      (split; [|split]);
      try (split; [intros _; exists p', q'; split; [reflexivity | lia] | reflexivity]);
      try (split; [discriminate | intros (? & ? & E & ?); discriminate E]);
      try (split; [discriminate | intros (p0 & q0 & E & Hor); injection E as <- <-; lia]);
      try (intros _; lia); try congruence.
  - split; [|split];
      try (split; [discriminate | intros (? & ? & E & ?); discriminate E]).
    congruence.
Qed.

End RecordedView.

(** ** Sequences of events *)

Section EventSequences.

Import SortingVisualizer.

Lemma random_arrayb_complete size max newArray :
  generateRandomArray size max newArray -> random_arrayb size max newArray = true.
Proof.
  unfold random_arrayb, generateRandomArray. intros [Hlen Hall].
  apply andb_true_iff. split; [now apply Nat.eqb_eq|].
  apply forallb_forall. rewrite List.Forall_forall in Hall.
  intros v Hv. specialize (Hall v Hv). lia.
Qed.

Lemma settledb_playing a ss idx alg sp sz t :
  settledb (mkComponent (mkState a ss idx alg sp true sz) t false false) =
    negb (length_of ss - 1 <=? idx) && t.
Proof.
  unfold settledb, animation_effect. simpl.
  destruct (length_of ss - 1 <=? idx), t; reflexivity.
Qed.

Lemma settledb_paused a ss idx alg sp sz t :
  settledb (mkComponent (mkState a ss idx alg sp false sz) t false false) = negb t.
Proof. unfold settledb, animation_effect. simpl. now destruct t. Qed.

Lemma run_cons a rest c :
  run (a :: rest) c = if allowedb a c then run rest (perform a c) else None.
Proof. reflexivity. Qed.

(** One firing of the timer while playing, and the effects after it. *)
Lemma run_tick r rest a ss idx alg sp sz :
  random_arrayb sz 100 r = true ->
  idx < length_of ss - 1 ->
  run (Do TimerFires :: Effects r :: rest)
      (mkComponent (mkState a ss idx alg sp true sz) true false false) =
    run rest
      (if length_of ss - 1 <=? idx + 1
       then mkComponent (mkState a ss (idx + 1) alg sp false sz) false false false
       else mkComponent (mkState a ss (idx + 1) alg sp true sz) true false false).
Proof.
  intros Hr Hidx. rewrite run_cons.
  assert (E1 : allowedb (Do TimerFires)
                 (mkComponent (mkState a ss idx alg sp true sz) true false false) = true).
  { unfold allowedb. rewrite settledb_playing.
    destruct (Z.leb_spec (length_of ss - 1) idx); [lia | reflexivity]. }
  rewrite E1.
  change (perform (Do TimerFires)
            (mkComponent (mkState a ss idx alg sp true sz) true false false))
    with (mkComponent (mkState a ss (idx + 1) alg sp true sz) false false false).
  rewrite run_cons.
  assert (E2 : allowedb (Effects r)
                 (mkComponent (mkState a ss (idx + 1) alg sp true sz) false false false) = true).
  { unfold allowedb. rewrite settledb_playing, andb_false_r. simpl. exact Hr. }
  rewrite E2. f_equal.
  unfold perform, flush, animation_effect. simpl.
  destruct (length_of ss - 1 <=? idx + 1); reflexivity.
Qed.

(** While playing, the timer takes the index to the last step, one step per
    firing, and the effect after the last firing stops the playback. *)
Lemma ticks_reach_the_end r : forall (k : nat) a ss idx alg sp sz,
  random_arrayb sz 100 r = true ->
  idx + Z.of_nat (Datatypes.S k) = length_of ss - 1 ->
  run (ticks (Datatypes.S k) r)
      (mkComponent (mkState a ss idx alg sp true sz) true false false) =
    Some (mkComponent (mkState a ss (length_of ss - 1) alg sp false sz) false false false).
Proof.
  induction k as [|k IH]; intros a ss idx alg sp sz Hr Hk.
  - simpl ticks. rewrite run_tick by (auto; lia).
    destruct (Z.leb_spec (length_of ss - 1) (idx + 1)); [|lia].
    simpl. replace (idx + 1) with (length_of ss - 1) by lia. reflexivity.
  - change (ticks (Datatypes.S (Datatypes.S k)) r)
      with (Do TimerFires :: Effects r :: ticks (Datatypes.S k) r).
    rewrite run_tick by (auto; lia).
    destruct (Z.leb_spec (length_of ss - 1) (idx + 1)); [lia|].
    apply IH; [exact Hr | lia].
Qed.

Lemma settled_component c :
  settled c ->
  c = mkComponent (state c)
        (isPlaying (state c) &&
         negb (length_of (sortSteps (state c)) - 1 <=? currentStep (state c)))
        false false /\
  (isPlaying (state c) &&
   (length_of (sortSteps (state c)) - 1 <=? currentStep (state c))) = false.
Proof.
  destruct c as [[a ss idx alg sp pl sz] t st rs].
  intros (Hst & Hrs & Ht & Hstop). simpl in *. subst st rs.
  split; [|exact Hstop]. f_equal. rewrite <- Ht. unfold animation_effect. simpl.
  destruct pl, (length_of ss - 1 <=? idx); reflexivity.
Qed.

Lemma play_runs_to_the_end c r :
  settled c -> isPlaying (state c) = false -> sortSteps (state c) <> [] ->
  -1 <= currentStep (state c) ->
  generateRandomArray (arraySize (state c)) 100 r ->
  let s := state c in
  let last_index := length_of (sortSteps s) - 1 in
  let k := Z.to_nat (last_index - play_start s) in
  (1 <= k)%nat /\
  run (Do ClickPlay :: Effects r :: ticks k r) c =
    Some (mkComponent (at_step s last_index false) false false false).
Proof.
  intros Hs Hp Hne Hlo Hr. apply random_arrayb_complete in Hr.
  destruct (settled_component c Hs) as [Hc _].
  destruct c as [[a ss idx alg sp pl sz] t st rs].
  simpl in Hp, Hne, Hlo, Hr, Hc. subst pl.
  injection Hc as -> -> ->. cbv zeta. unfold play_start.
  cbn [state sortSteps currentStep arraySize].
  assert (Hlen : 1 <= length_of ss).
  { unfold length_of. destruct ss; [contradiction | simpl; lia]. }
  set (start := if length_of ss - 1 <=? idx then -1 else idx).
  assert (Hstart : -1 <= start < length_of ss - 1).
  { unfold start. destruct (Z.leb_spec (length_of ss - 1) idx); lia. }
  split; [lia|].
  rewrite run_cons.
  assert (E1 : allowedb (Do ClickPlay)
                 (mkComponent (mkState a ss idx alg sp false sz) false false false) = true).
  { unfold allowedb. now rewrite settledb_paused. }
  rewrite E1.
  assert (E2 : perform (Do ClickPlay)
                 (mkComponent (mkState a ss idx alg sp false sz) false false false) =
               mkComponent (mkState a ss start alg sp true sz) false false false).
  { unfold perform, handle, startSort, setCurrentStep, setIsPlaying, with_state, start.
    simpl. now destruct (_ <=? _). }
  rewrite E2, run_cons.
  assert (E3 : allowedb (Effects r)
                 (mkComponent (mkState a ss start alg sp true sz) false false false) = true).
  { unfold allowedb. rewrite settledb_playing, andb_false_r. simpl. exact Hr. }
  rewrite E3.
  assert (E4 : perform (Effects r)
                 (mkComponent (mkState a ss start alg sp true sz) false false false) =
               mkComponent (mkState a ss start alg sp true sz) true false false).
  { unfold perform, flush, animation_effect. simpl.
    destruct (Z.leb_spec (length_of ss - 1) start); [lia | reflexivity]. }
  rewrite E4.
  destruct (Z.to_nat (length_of ss - 1 - start)) as [|k] eqn:Ek; [lia|].
  unfold at_step. simpl.
  apply ticks_reach_the_end; [exact Hr | lia].
Qed.



End EventSequences.

(** ** Regenerating the steps *)

Section Regeneration.

Import SortingVisualizer.

Lemma random_array_nonempty size newArray :
  5 <= size -> generateRandomArray size 100 newArray -> (len newArray =? 0) = false.
Proof.
  intros Hs [Hlen _]. apply Z.eqb_neq. unfold len. lia.
Qed.

Lemma settledb_fresh s newArray size : settledb (fresh_component s newArray size) = true.
Proof. unfold fresh_component. now rewrite settledb_paused. Qed.

(** The button: the handler and one round of effects. *)
Lemma generate_regenerates c newArray :
  settled c -> 5 <= arraySize (state c) ->
  generateRandomArray (arraySize (state c)) 100 newArray ->
  run [Do (ClickGenerate newArray); Effects newArray] c =
    Some (fresh_component (state c) newArray (arraySize (state c))).
Proof.
  intros Hs Hsz Hnew.
  pose proof (random_array_nonempty _ _ Hsz Hnew) as Hne.
  pose proof (random_arrayb_complete _ _ _ Hnew) as Hb.
  apply settledb_spec in Hs.
  destruct c as [[a ss idx alg sp pl sz] t st rs]. simpl in Hsz, Hne, Hb.
  rewrite !run_cons.
  assert (E1 : allowedb (Do (ClickGenerate newArray))
                 (mkComponent (mkState a ss idx alg sp pl sz) t st rs) = true).
  { unfold allowedb. rewrite Hs. simpl. exact Hb. }
  rewrite E1.
  assert (E2 : perform (Do (ClickGenerate newArray))
                 (mkComponent (mkState a ss idx alg sp pl sz) t st rs) =
               mkComponent (mkState newArray [] (-1) alg sp false sz) t true rs)
    by reflexivity.
  rewrite E2.
  assert (Hrs : rs = false).
  { unfold settledb in Hs. simpl in Hs. destruct st, rs; simpl in Hs; congruence. }
  subst rs.
  assert (E3 : allowedb (Effects newArray)
                 (mkComponent (mkState newArray [] (-1) alg sp false sz) t true false) = true).
  { unfold allowedb, settledb. simpl. exact Hb. }
  rewrite E3. simpl run. f_equal.
  unfold perform, flush, animation_effect, steps_effect. simpl. rewrite Hne.
  unfold fresh_component. simpl. destruct alg; reflexivity.
Qed.

(** The size slider: the handler, the round of effects that resets the
    array, and the round that records its steps. *)
Lemma resize_regenerates c n newArray :
  settled c -> 5 <= n <= 100 -> n <> arraySize (state c) ->
  generateRandomArray n 100 newArray ->
  run [Do (SlideSize n); Effects newArray; Effects newArray] c =
    Some (fresh_component (state c) newArray n).
Proof.
  intros Hs Hn Hdiff Hnew.
  pose proof (random_array_nonempty _ _ (proj1 Hn) Hnew) as Hne.
  pose proof (random_arrayb_complete _ _ _ Hnew) as Hb.
  destruct (settled_component c Hs) as [Hc Hstop].
  apply settledb_spec in Hs.
  destruct c as [[a ss idx alg sp pl sz] t st rs].
  simpl in Hdiff, Hc, Hstop. injection Hc as Ht -> ->.
  rewrite !run_cons.
  assert (E1 : allowedb (Do (SlideSize n))
                 (mkComponent (mkState a ss idx alg sp pl sz) t false false) = true).
  { unfold allowedb. rewrite Hs. simpl.
    destruct (Z.leb_spec 5 n), (Z.leb_spec n 100); first [reflexivity | lia]. }
  rewrite E1.
  assert (E2 : perform (Do (SlideSize n))
                 (mkComponent (mkState a ss idx alg sp pl sz) t false false) =
               mkComponent (mkState a ss idx alg sp pl n) t false true).
  { unfold perform, handle, setArraySize. simpl.
    destruct (Z.eqb_spec n sz); [contradiction | reflexivity]. }
  rewrite E2.
  assert (E3 : allowedb (Effects newArray)
                 (mkComponent (mkState a ss idx alg sp pl n) t false true) = true).
  { unfold allowedb, settledb. simpl. rewrite ?andb_false_r. simpl. exact Hb. }
  rewrite E3.
  assert (E4 : exists t', perform (Effects newArray)
                 (mkComponent (mkState a ss idx alg sp pl n) t false true) =
               mkComponent (mkState newArray [] (-1) alg sp false n) t' true false).
  { unfold perform, flush, animation_effect, reset_effect, resetArray. simpl.
    rewrite Hstop.
    destruct (negb pl || (length_of ss - 1 <=? idx)); eexists; reflexivity. }
  destruct E4 as [t' E4]. rewrite E4.
  assert (E5 : allowedb (Effects newArray)
                 (mkComponent (mkState newArray [] (-1) alg sp false n) t' true false) = true).
  { unfold allowedb, settledb. simpl. exact Hb. }
  rewrite E5. simpl run. f_equal.
  unfold perform, flush, animation_effect, steps_effect. simpl. rewrite Hne.
  unfold fresh_component. simpl. destruct alg; reflexivity.
Qed.

Lemma recorder_of_nonempty a A : 2 <= len A -> recorder_of a A <> [].
Proof.
  destruct a; simpl; [apply bubbleSort_nonempty | apply quickSort_nonempty].
Qed.

Lemma switch_regenerates c a r :
  settled c -> a <> algorithm (state c) -> 2 <= len (array (state c)) ->
  generateRandomArray (arraySize (state c)) 100 r ->
  run [Do (SelectAlgorithm a); Effects r] c = Some (switched_component c a) /\
  settled (switched_component c a).
Proof.
  intros Hs Ha Hlen Hr.
  pose proof (random_arrayb_complete _ _ _ Hr) as Hb.
  pose proof (recorder_of_nonempty a _ Hlen) as Hne.
  destruct (settled_component c Hs) as [Hc Hstop].
  apply settledb_spec in Hs.
  destruct c as [[arr0 ss idx alg sp pl sz] t st rs].
  simpl in Ha, Hlen, Hb, Hne, Hc, Hstop. injection Hc as Ht -> ->.
  assert (Hz : (len arr0 =? 0) = false) by (apply Z.eqb_neq; lia).
  assert (Hlen' : 1 <= length_of (recorder_of a arr0)).
  { unfold length_of. destruct (recorder_of a arr0); [contradiction | simpl; lia]. }
  assert (Htimer : t = pl).
  { rewrite Ht. destruct pl; simpl in Hstop |- *; [now rewrite Hstop | reflexivity]. }
  split.
  - rewrite !run_cons.
    assert (E1 : allowedb (Do (SelectAlgorithm a))
                   (mkComponent (mkState arr0 ss idx alg sp pl sz) t false false) = true).
    { unfold allowedb. rewrite Hs. reflexivity. }
    rewrite E1.
    assert (E2 : perform (Do (SelectAlgorithm a))
                   (mkComponent (mkState arr0 ss idx alg sp pl sz) t false false) =
                 mkComponent (mkState arr0 ss idx a sp pl sz) t true false).
    { unfold perform, handle, setAlgorithm. simpl.
      destruct a, alg; simpl; try reflexivity; contradiction. }
    rewrite E2.
    assert (E3 : allowedb (Effects r)
                   (mkComponent (mkState arr0 ss idx a sp pl sz) t true false) = true).
    { unfold allowedb, settledb. simpl. exact Hb. }
    rewrite E3. simpl run. f_equal.
    unfold perform, flush, animation_effect, steps_effect, switched_component. simpl.
    rewrite Hz, Hstop.
    destruct pl; simpl in Hstop |- *; [rewrite Hstop|]; simpl; destruct a; reflexivity.
  - apply settledb_spec. unfold switched_component. simpl.
    destruct pl; [rewrite settledb_playing | now rewrite settledb_paused].
    destruct (Z.leb_spec (length_of (recorder_of a arr0) - 1) (-1)); [lia | reflexivity].
Qed.

End Regeneration.

(** ** The timer racing the effects *)

Section StaleTicks.

Import SortingVisualizer.


Lemma run_reachable_racing script c c' :
  reachable_racing c -> run script c = Some c' -> reachable_racing c'.
Proof.
  revert c. induction script as [|a rest IH]; simpl; intros c Hc Hrun.
  - now injection Hrun as <-.
  - destruct (allowedb a c) eqn:Ha; [|discriminate].
    apply (IH (perform a c)); [|exact Hrun].
    eapply racing_step; [exact Hc|]. apply racing_in_order. now apply allowedb_step.
Qed.








End StaleTicks.

(** ** Pausing and resuming *)

Section PauseResume.

Import SortingVisualizer.

(** A settled component that is playing has a step left to show and a timer
    pending. *)
Lemma settled_playing c :
  settled c -> isPlaying (state c) = true ->
  currentStep (state c) < length_of (sortSteps (state c)) - 1 /\
  c = mkComponent (at_step (state c) (currentStep (state c)) true) true false false.
Proof.
  intros Hs Hp. destruct (settled_component c Hs) as [Hc Hstop].
  destruct c as [[a ss idx alg sp pl sz] t st rs]. simpl in Hp, Hc, Hstop |- *.
  subst pl. simpl in Hc, Hstop.
  destruct (Z.leb_spec (length_of ss - 1) idx) as [Hle|Hlt]; [discriminate|].
  split; [exact Hlt|]. exact Hc.
Qed.

Lemma pause_then_play c r :
  settled c -> isPlaying (state c) = true ->
  generateRandomArray (arraySize (state c)) 100 r ->
  let paused := mkComponent (at_step (state c) (currentStep (state c)) false)
                  false false false in
  run [Do ClickPause; Effects r] c = Some paused /\
  run [Do ClickPlay; Effects r] paused = Some c.
Proof.
  intros Hs Hp Hr. apply random_arrayb_complete in Hr.
  destruct (settled_playing c Hs Hp) as [Hlt Hc].
  destruct c as [[a ss idx alg sp pl sz] t st rs].
  simpl in Hp, Hr, Hlt, Hc. subst pl. injection Hc as -> -> ->.
  cbv zeta. unfold at_step. cbn [state array sortSteps currentStep algorithm speed arraySize].
  assert (Hleb : (length_of ss - 1 <=? idx) = false) by (apply Z.leb_gt; exact Hlt).
  split.
  - rewrite run_cons.
    assert (E1 : allowedb (Do ClickPause)
                   (mkComponent (mkState a ss idx alg sp true sz) true false false) = true).
    { unfold allowedb. rewrite settledb_playing, Hleb. reflexivity. }
    rewrite E1.
    change (perform (Do ClickPause)
              (mkComponent (mkState a ss idx alg sp true sz) true false false))
      with (mkComponent (mkState a ss idx alg sp false sz) true false false).
    rewrite run_cons.
    assert (E2 : allowedb (Effects r)
                   (mkComponent (mkState a ss idx alg sp false sz) true false false) = true).
    { unfold allowedb. rewrite settledb_paused. simpl. exact Hr. }
    rewrite E2. reflexivity.
  - rewrite run_cons.
    assert (E1 : allowedb (Do ClickPlay)
                   (mkComponent (mkState a ss idx alg sp false sz) false false false) = true).
    { unfold allowedb. rewrite settledb_paused. reflexivity. }
    rewrite E1.
    assert (E3 : perform (Do ClickPlay)
                   (mkComponent (mkState a ss idx alg sp false sz) false false false) =
                 mkComponent (mkState a ss idx alg sp true sz) false false false).
    { unfold perform, handle, startSort. cbn [state sortSteps currentStep].
      rewrite Hleb. reflexivity. }
    rewrite E3, run_cons.
    assert (E2 : allowedb (Effects r)
                   (mkComponent (mkState a ss idx alg sp true sz) false false false) = true).
    { unfold allowedb. rewrite settledb_playing, andb_false_r. simpl. exact Hr. }
    rewrite E2. unfold perform, flush, animation_effect.
    cbn [state isPlaying sortSteps currentStep stepsStale resetStale]. rewrite Hleb.
    reflexivity.
Qed.

End PauseResume.

Section TutorialText.

Import SortingVisualizer.

Lemma element_get (a : list Z) k :
  0 <= k < len a -> Tutorial.element a k = Some (get a k).
Proof.
  intros Hk. unfold Tutorial.element.
  destruct (Z.leb_spec 0 k); [|lia]. destruct (Z.ltb_spec k (len a)); [|lia].
  simpl. now apply get_lookup.
Qed.

Lemma explanation_of_recorded_step c :
  steps_belong c -> stepsStale c = false ->
  Tutorial.all_defined (Tutorial.getStepExplanation (state c)) /\
  Tutorial.greater_as_said (Tutorial.getStepExplanation (state c)).
Proof.
  intros Hb Hfresh. unfold Tutorial.getStepExplanation. cbv zeta.
  destruct (currentStep (state c) <? 0); [simpl; auto|].
  destruct (sortSteps (state c) !! Z.to_nat (currentStep (state c))) as [st|] eqn:Hst;
    [|simpl; auto].
  assert (Hin : st ∈ sortSteps (state c)) by (eapply list_elem_of_lookup_2; eauto).
  destruct (steps_belong_step c st Hb Hin) as (Hnb & [Hci Hwi] & HP).
  assert (Hlen : len (step_array st) = len (SortingVisualizer.array (state c))).
  { unfold len. f_equal. symmetry. now apply Permutation_length. }
  unfold step_array in Hlen.
  destruct (algorithm (state c)) eqn:Halg.
  - destruct (comparing st) as [[p q]|] eqn:Ec; [|destruct (swapping st) as [[p q]|] eqn:Ew].
    + destruct (Hci p q eq_refl) as (Hp & Hq & _).
      rewrite !element_get by lia. simpl. split; [split; eauto | exact I].
    + destruct (Hwi p q eq_refl) as (Hp & Hq & _).
      rewrite !element_get by lia. simpl. split; [split; eauto|].
      (* the steps are those of bubble sort *)
      destruct Hb as (_ & Hnil & Hsteps).
      assert (Hne : SortingVisualizer.array (state c) <> []).
      { intros Hz. rewrite (Hnil Hz) in Hin. now apply not_elem_of_nil in Hin. }
      specialize (Hsteps Hfresh Hne). rewrite Halg in Hsteps. simpl in Hsteps.
      pose proof (bubble_trace_swaps_justified _ _ _
                    (bubbleSort_bubble_trace (SortingVisualizer.array (state c)))) as Hj.
      rewrite <- Hsteps in Hj.
      destruct (Hj _ st p q Hst Ew) as [Hgt _]. exact Hgt.
    + simpl. auto.
  - destruct (comparing st) as [[p q]|] eqn:Ec; [|destruct (swapping st) as [[p q]|] eqn:Ew].
    + destruct (Hci p q eq_refl) as (Hp & Hq & _).
      rewrite !element_get by lia. simpl. split; [split; eauto | exact I].
    + destruct (Hwi p q eq_refl) as (Hp & Hq & _).
      rewrite !element_get by lia. simpl. split; [split; eauto | exact I].
    + simpl. auto.
Qed.

Lemma explanation_empty_iff (s : State) :
  Tutorial.getStepExplanation s = Tutorial.NoExplanation <->
  (currentStep s < 0 \/ length_of (sortSteps s) <= currentStep s).
Proof.
  unfold Tutorial.getStepExplanation. cbv zeta.
  destruct (Z.ltb_spec (currentStep s) 0) as [Hneg|Hpos]; [split; auto|].
  destruct (sortSteps s !! Z.to_nat (currentStep s)) as [st|] eqn:Hst.
  - apply lookup_lt_Some in Hst.
    split.
    + destruct (algorithm s), (comparing st) as [[? ?]|], (swapping st) as [[? ?]|];
        discriminate.
    + unfold length_of. lia.
  - apply lookup_ge_None in Hst. split; [|reflexivity].
    intros _. right. unfold length_of. lia.
Qed.

End TutorialText.

(** ** Two states to look at *)

Section Showcase.

Import SortingVisualizer.

Lemma shown_reachable :
  reachable (shown (-1)) /\ reachable (shown 1) /\ reachable (shown 23).
Proof.
  split; [|split].
  - apply (run_reachable (show_script 0) mount); [constructor | vm_compute; reflexivity].
  - apply (run_reachable (show_script 2) mount); [constructor | vm_compute; reflexivity].
  - apply (run_reachable (show_script 24) mount); [constructor | vm_compute; reflexivity].
Qed.

Lemma shown_settled i : settled (shown i).
Proof. apply settledb_spec. unfold shown. now rewrite settledb_paused. Qed.

End Showcase.

(** * Part IV: the claims *)

(** C1.  For every input array [A], the [array] of the last step returned by
    [bubbleSort A], and likewise by [quickSort A], is the ascending sort of
    [A]: it is ascending and a permutation of [A].  (There is a last step
    as soon as [A] has two elements; shorter arrays yield no step.) *)
Theorem last_step_is_sorted_input (A : list Z) :
  (forall st, last (bubbleSort A) = Some st ->
     array st = ascending_sort A /\ Sorted Z.le (array st) /\ Permutation A (array st)) /\
  (forall st, last (quickSort A) = Some st ->
     array st = ascending_sort A /\ Sorted Z.le (array st) /\ Permutation A (array st)) /\
  (2 <= len A -> is_Some (last (bubbleSort A)) /\ is_Some (last (quickSort A))).
Proof.
  split; [|split].
  - intros st Hlast.
    rewrite (trace_last _ _ _ _ _ (bubbleSort_trace A) Hlast).
    apply bubble_run_sorted.
  - intros st Hlast.
    rewrite (trace_last _ _ _ _ _ (quickSort_trace A) Hlast).
    apply quick_run_sorted.
  - intros Hn. split; apply last_is_Some.
    + now apply bubbleSort_nonempty.
    + now apply quickSort_nonempty.
Qed.

Lemma last_step_is_sorted_input_witness :
  let b := mkStep [1; 3; 5] None None in
  let q := mkStep [1; 2; 3; 4; 5] None None in
  (last (bubbleSort [5; 3; 1]) = Some b /\
   array b = ascending_sort [5; 3; 1] /\ Sorted Z.le (array b) /\
   Permutation [5; 3; 1] (array b)) /\
  (last (quickSort [5; 3; 1; 4; 2]) = Some q /\
   array q = ascending_sort [5; 3; 1; 4; 2] /\ Sorted Z.le (array q) /\
   Permutation [5; 3; 1; 4; 2] (array q)) /\
  is_Some (last (bubbleSort [5; 3; 1])).
Proof.
  intros b q. split; [|split].
  - assert (H : last (bubbleSort [5; 3; 1]) = Some b) by (vm_compute; reflexivity).
    split; [exact H|].
    exact (proj1 (last_step_is_sorted_input [5; 3; 1]) b H).
  - assert (H : last (quickSort [5; 3; 1; 4; 2]) = Some q) by (vm_compute; reflexivity).
    split; [exact H|].
    exact (proj1 (proj2 (last_step_is_sorted_input [5; 3; 1; 4; 2])) q H).
  - apply (proj2 (proj2 (last_step_is_sorted_input [5; 3; 1]))). vm_compute. discriminate.
Defined.

(** C2.  With [n] the length of [A], [bubbleSort A] returns between
    [n(n-1)/2] and [3n(n-1)/2] steps: it makes [n(n-1)/2] comparisons, each
    of which pushes one step when the pair is in order and three when it is
    inverted; for [n <= 1] it returns no step. *)
Theorem bubbleSort_step_count (A : list Z) :
  let n := len A in
  let total := step_count (bubbleSort A) in
  let cmp := count_frames is_comparing (bubbleSort A) in
  let swp := count_frames is_swapping (bubbleSort A) in
  n * (n - 1) / 2 <= total <= 3 * n * (n - 1) / 2 /\
  (n <= 1 -> total = 0) /\
  cmp = n * (n - 1) / 2 /\ 0 <= swp <= cmp /\ total = cmp + 2 * swp /\
  (forall j s, step_count (steps (bubble_body j s)) =
     step_count (steps s) + (if get (arr s) j >? get (arr s) (j + 1) then 3 else 1)).
Proof.
  intros n total cmp swp.
  pose proof (bubble_run_frames A) as H. cbv zeta in H. fold n in H.
  unfold frames_since in H. simpl in H.
  change (steps (bubble_run A)) with (bubbleSort A) in H.
  unfold step_count at 2 in H. unfold count_frames at 2 4 in H. simpl in H.
  rewrite !Z.sub_0_r in H. fold total cmp swp in H.
  destruct H as (Hc1 & Hc0 & Hs & Ht).
  assert (Hn : 0 <= n) by apply len_nonneg.
  assert (Hcmp : 2 * cmp = n * (n - 1)).
  { destruct (Z_le_gt_dec 1 n); [auto|]. assert (n = 0) by lia. subst n.
    rewrite Hc0 by lia. lia. }
  assert (Hhalf : n * (n - 1) / 2 = cmp).
  { rewrite <- Hcmp. rewrite Z.mul_comm. apply Z.div_mul. lia. }
  assert (Hhalf3 : 3 * n * (n - 1) / 2 = 3 * cmp).
  { replace (3 * n * (n - 1)) with (3 * cmp * 2) by lia. apply Z.div_mul. lia. }
  rewrite Hhalf, Hhalf3.
  repeat split; try lia.
  intros j s. apply bubble_body_frames.
Qed.

Lemma bubbleSort_step_count_witness :
  step_count (bubbleSort [7]) = 0.
Proof.
  apply (proj1 (proj2 (bubbleSort_step_count [7]))). vm_compute. discriminate.
Defined.

(** C3, as stated, fails for [quickSort]: on [[1; 2]] the first element is
    at most the pivot while [i + 1 = j = 0], and [partition] pushes a step
    with [swapping = [0, 0]]. *)
Lemma quickSort_swaps_equal_indices :
  ~ Forall distinct_pairs (quickSort [1; 2]).
Proof.
  intros H. rewrite List.Forall_forall in H.
  assert (Hin : In (mkStep [1; 2] None (Some (0, 0))) (quickSort [1; 2])).
  { vm_compute. right. left. reflexivity. }
  destruct (H _ Hin) as [_ Hsw].
  exact (Hsw 0 0 eq_refl eq_refl).
Qed.

(** C3, amended.  In every step of [bubbleSort A] both highlight fields,
    when set, are a pair of adjacent positions [(j, j+1)] of the array, hence
    distinct.  In every step of [quickSort A] the [comparing] field, when
    set, is a pair of distinct positions [(j, high)] with [j < high]; the
    [swapping] field, when set, is a pair of positions [(p, q)] with
    [p <= q], which may be equal. *)
Theorem highlighted_pairs (A : list Z) :
  (forall st, In st (bubbleSort A) ->
     distinct_pairs st /\
     (forall p q, comparing st = Some (p, q) -> 0 <= p /\ q = p + 1 /\ q < len A) /\
     (forall p q, swapping st = Some (p, q) -> 0 <= p /\ q = p + 1 /\ q < len A)) /\
  (forall st, In st (quickSort A) ->
     (forall p q, comparing st = Some (p, q) -> 0 <= p /\ p < q /\ q < len A) /\
     (forall p q, swapping st = Some (p, q) -> 0 <= p /\ p <= q /\ q < len A)).
Proof.
  split; intros st Hin.
  - pose proof (trace_indices _ _ _ _ (bubbleSort_trace A)) as Hall.
    rewrite List.Forall_forall in Hall. destruct (Hall st Hin) as [Hc Hs].
    unfold adjacent in Hc, Hs.
    split; [split|split]; intros p q E;
      try (specialize (Hc p q E)); try (specialize (Hs p q E)); lia.
  - pose proof (trace_indices _ _ _ _ (quickSort_trace A)) as Hall.
    rewrite List.Forall_forall in Hall. destruct (Hall st Hin) as [Hc Hs].
    unfold ordered in Hc, Hs.
    split; intros p q E;
      try (specialize (Hc p q E)); try (specialize (Hs p q E)); lia.
Qed.

Lemma highlighted_pairs_witness :
  (0 <= 0 /\ 1 = 0 + 1 /\ 1 < len [5; 3; 1]) /\
  (0 <= 0 /\ 0 <= 0 /\ 0 < len [1; 2]).
Proof.
  split.
  - apply (proj2 (proj2 (proj1 (highlighted_pairs [5; 3; 1])
                                 (mkStep [5; 3; 1] None (Some (0, 1)))
                                 ltac:(vm_compute; right; left; reflexivity)))
             0 1 eq_refl).
  - apply (proj2 (proj2 (highlighted_pairs [1; 2])
                          (mkStep [1; 2] None (Some (0, 0)))
                          ltac:(vm_compute; right; left; reflexivity))
             0 0 eq_refl).
Defined.

(** C4.  No step of [bubbleSort A] or of [quickSort A] has both its
    [comparing] and its [swapping] field set. *)
Theorem never_comparing_and_swapping (A : list Z) :
  Forall not_both (bubbleSort A) /\ Forall not_both (quickSort A).
Proof.
  split.
  - exact (trace_not_both _ _ _ _ (bubbleSort_trace A)).
  - exact (trace_not_both _ _ _ _ (quickSort_trace A)).
Qed.

(** C5.  In the sequences of both recorders, a step whose [swapping] field
    is [(p, q)] holds the array before the exchange, and the step right
    after it has both fields null and holds that array with the entries at
    [p] and [q] exchanged: [p] and [q] are positions of the array, the next
    array has at [p] the entry the swap step has at [q] and at [q] the entry
    it has at [p], and every other entry and the length are the same. *)
Theorem swap_step_then_swapped_array (A : list Z) :
  (forall (k : nat) st p q,
     bubbleSort A !! k = Some st -> swapping st = Some (p, q) ->
     exists st', bubbleSort A !! Datatypes.S k = Some st' /\
       comparing st' = None /\ swapping st' = None /\
       exchanged_at (array st) (array st') p q) /\
  (forall (k : nat) st p q,
     quickSort A !! k = Some st -> swapping st = Some (p, q) ->
     exists st', quickSort A !! Datatypes.S k = Some st' /\
       comparing st' = None /\ swapping st' = None /\
       exchanged_at (array st) (array st') p q).
Proof.
  split.
  - exact (trace_swap_then_result _ _ _ _ (bubbleSort_trace A)).
  - exact (trace_swap_then_result _ _ _ _ (quickSort_trace A)).
Qed.

Lemma swap_step_then_swapped_array_witness :
  (exists st', bubbleSort [5; 3; 1] !! 2%nat = Some st' /\
     comparing st' = None /\ swapping st' = None /\
     exchanged_at [5; 3; 1] (array st') 0 1) /\
  (exists st', quickSort [5; 3; 1; 4; 2] !! 4%nat = Some st' /\
     comparing st' = None /\ swapping st' = None /\
     exchanged_at [5; 3; 1; 4; 2] (array st') 0 2).
Proof.
  split.
  - exact (proj1 (swap_step_then_swapped_array [5; 3; 1]) 1%nat
             (mkStep [5; 3; 1] None (Some (0, 1))) 0 1
             ltac:(vm_compute; reflexivity) eq_refl).
  - exact (proj2 (swap_step_then_swapped_array [5; 3; 1; 4; 2]) 3%nat
             (mkStep [5; 3; 1; 4; 2] None (Some (0, 2))) 0 2
             ltac:(vm_compute; reflexivity) eq_refl).
Defined.

(** C6, as stated, fails: the second pass of [bubbleSort [5; 3; 1]] covers
    [j = 0] only, so its frames are on the positions (0,1); the comparison
    of (1,2) that follows the third step belongs to the first pass. *)
Lemma second_pass_is_on_0_1 : ~ scenario_as_stated.
Proof.
  intros (_ & _ & _ & (st & Hin & Hon) & _).
  vm_compute in Hin.
  destruct Hin as [<-|[<-|[<-|[]]]]; destruct Hon as [H|H]; discriminate H.
Qed.

(** C6, amended.  [bubbleSort [5; 3; 1]] returns nine steps.  The first three
    are as stated; the sequence continues, still in the first pass, with the
    comparison and swap of the positions (1,2); the second pass compares and
    swaps the positions (0,1); the last step holds [[1; 3; 5]]. *)
Theorem bubbleSort_5_3_1 :
  bubbleSort [5; 3; 1] =
    [ mkStep [5; 3; 1] (Some (0, 1)) None;
      mkStep [5; 3; 1] None (Some (0, 1));
      mkStep [3; 5; 1] None None;
      mkStep [3; 5; 1] (Some (1, 2)) None;
      mkStep [3; 5; 1] None (Some (1, 2));
      mkStep [3; 1; 5] None None;
      mkStep [3; 1; 5] (Some (0, 1)) None;
      mkStep [3; 1; 5] None (Some (0, 1));
      mkStep [1; 3; 5] None None ] /\
  pass_frames [5; 3; 1] 1 = take 6 (bubbleSort [5; 3; 1]) /\
  pass_frames [5; 3; 1] 2 = drop 6 (bubbleSort [5; 3; 1]) /\
  last (bubbleSort [5; 3; 1]) = Some (mkStep [1; 3; 5] None None).
Proof. vm_compute. repeat split. Qed.

Section ControllerClaims.

Import SortingVisualizer.


(** The bound on the index fails as well, by a stale tick: the size slider
    is moved while playing, the reset effect clears the steps, and the timer
    of the old sequence fires before the cleanup of the animation effect
    has cleared it; the next render has [currentStep = 0] and no steps. *)
Lemma stale_tick_passes_the_end :
  ~ (forall c, reachable_racing c -> index_in_bounds c).
Proof.
  intros H.
  destruct (run resize_while_playing mount) as [c|] eqn:Hrun;
    [|vm_compute in Hrun; discriminate].
  assert (Hc : reachable_racing c)
    by exact (run_reachable_racing _ _ _ racing_mount Hrun).
  vm_compute in Hrun. injection Hrun as <-.
  pose proof (fun Ht => racing_step _ _ Hc (racing_stale_tick _ Ht)) as Hc'.
  specialize (Hc' eq_refl).
  specialize (H _ Hc'). unfold index_in_bounds in H. vm_compute in H.
  destruct H as [_ H]. apply H. reflexivity.
Qed.



(** C8.  For every step sequence and every [currentStep] outside
    [0 .. sortSteps.length - 1], among them [-1] and any index into an
    empty sequence, the current view is the base [array] with no compared
    and no swapped pair, every bar has the plain colour, and nothing
    faults. *)
Theorem view_outside_falls_back (s : State) :
  currentStep s < 0 \/ length_of (sortSteps s) - 1 < currentStep s ->
  currentArray s = Value (array s) /\
  currentComparing s = Value None /\
  currentSwapping s = Value None /\
  forall index, getBarColor s index = Value bg_blue_500.
Proof.
  intros H. unfold getBarColor, currentArray, currentComparing, currentSwapping.
  rewrite !current_or_outside by exact H. auto.
Qed.

Lemma view_outside_falls_back_witness :
  let before := mkState [5; 3; 1] (bubbleSort [5; 3; 1]) (-1) bubble 50 false 3 in
  let empty := mkState [7] [] 0 quick 50 false 1 in
  (currentArray before = Value [5; 3; 1] /\ currentComparing before = Value None /\
   currentSwapping before = Value None) /\
  (currentArray empty = Value [7] /\ currentComparing empty = Value None /\
   currentSwapping empty = Value None).
Proof.
  intros before empty. split.
  - destruct (view_outside_falls_back before) as (H1 & H2 & H3 & _);
      [left; simpl; lia | auto].
  - destruct (view_outside_falls_back empty) as (H1 & H2 & H3 & _);
      [right; vm_compute; reflexivity | auto].
Defined.

End ControllerClaims.

(** C9.  Two runs of a recorder on the same input array show identical step
    sequences, which depend on nothing but the contents [A] of the input: a
    run leaves its input object as it was, so a second run on that object
    reads the same [A]; the sequence either run shows is [bubbleSort A]
    (or [quickSort A]), whatever else the heap holds; and the second run
    does not disturb the steps of the first. *)
Theorem recorders_are_deterministic (h : Heap.heap) (inputArray : Heap.loc) (A : list Z) :
  h !! inputArray = Some A ->
  runs_identically Heap.bubbleSort bubbleSort h inputArray A /\
  runs_identically Heap.quickSort quickSort h inputArray A.
Proof.
  intros HA. split.
  - apply (run_twice Heap.bubbleSort bubbleSort heap_bubbleSort_ok h inputArray A HA).
  - apply (run_twice Heap.quickSort quickSort heap_quickSort_ok h inputArray A HA).
Qed.

Lemma recorders_are_deterministic_witness :
  runs_identically Heap.bubbleSort bubbleSort [[5; 3; 1]] 0%nat [5; 3; 1] /\
  runs_identically Heap.quickSort quickSort [[5; 3; 1]] 0%nat [5; 3; 1].
Proof.
  apply (recorders_are_deterministic [[5; 3; 1]] 0%nat [5; 3; 1]). reflexivity.
Defined.

(** C10.  Every step of [bubbleSort A] and of [quickSort A], not only the
    last, holds a permutation of [A]: the same length and the same number of
    occurrences of every value. *)
Theorem every_step_permutes_input (A : list Z) :
  let same_values (st : SortStep) :=
    Permutation A (array st) /\ length (array st) = length A /\
    forall v, count_occ Z.eq_dec (array st) v = count_occ Z.eq_dec A v in
  Forall same_values (bubbleSort A) /\ Forall same_values (quickSort A).
Proof.
  intros same_values.
  assert (Hperm : forall st, Permutation A (array st) -> same_values st).
  { intros st HP. split; [exact HP|]. split.
    - symmetry. now apply Permutation_length.
    - intros v. symmetry. now apply Permutation_count_occ. }
  split.
  - eapply Forall_impl; [exact (proj2 (trace_Permutation _ _ _ _ (bubbleSort_trace A)))|].
    exact Hperm.
  - eapply Forall_impl; [exact (proj2 (trace_Permutation _ _ _ _ (quickSort_trace A)))|].
    exact Hperm.
Qed.

(** * Part V: further properties of the recorders and the component *)

(** ** The recorders *)

(** X1.  [partition(arr, low, high)] on a range inside the array returns an
    index [p] of the range; afterwards the old [arr[high]], the pivot, is
    at [p], the values of [low..p-1] are at most the pivot and those of
    [p+1..high] are larger, nothing outside [low..high] has moved, the
    array is a permutation of what it was, and the steps pushed before are
    still there. *)
Theorem partition_postcondition (low high : Z) (s : Recorder) :
  0 <= low -> low <= high -> high < len (arr s) ->
  let p := fst (partition low high s) in
  let t := snd (partition low high s) in
  low <= p <= high /\
  get (arr t) p = get (arr s) high /\
  (forall k, low <= k -> k < p -> get (arr t) k <= get (arr t) p) /\
  (forall k, p < k -> k <= high -> get (arr t) p < get (arr t) k) /\
  (forall k, k < low \/ high < k -> get (arr t) k = get (arr s) k) /\
  Permutation (arr s) (arr t) /\
  exists tr, steps t = steps s ++ tr.
Proof.
  intros Hlow Hle Hh p t.
  pose proof (partition_index_range low high s Hle) as Hp.
  destruct (partition_pivot_strict low high s Hlow Hle Hh) as (Hpiv & Hsmall & Hbig).
  pose proof (partition_records low high s Hlow Hle Hh) as Hrec.
  pose proof (records_within low high s _ Hlow Hh Hrec) as (_ & Hout & _).
  destruct Hrec as (tr & Etr & Htr).
  fold p t in Hp, Hpiv, Hsmall, Hbig, Hout, Etr, Htr.
  split; [exact Hp|]. split; [exact Hpiv|].
  split; [intros k H1 H2; rewrite Hpiv; now apply Hsmall|].
  split; [intros k H1 H2; rewrite Hpiv; now apply Hbig|].
  split; [exact Hout|].
  split; [exact (proj1 (trace_Permutation _ _ _ _ Htr))|].
  now exists tr.
Qed.

Lemma partition_postcondition_witness :
  let s := mkRec [5; 3; 1; 4; 2] [] in
  fst (partition 0 4 s) = 1 /\ arr (snd (partition 0 4 s)) = [1; 2; 5; 4; 3] /\
  get (arr (snd (partition 0 4 s))) (fst (partition 0 4 s)) = get (arr s) 4.
Proof.
  intros s. split; [reflexivity|]. split; [reflexivity|].
  apply (partition_postcondition 0 4 s); simpl; unfold len; simpl; lia.
Defined.

(** X2.  [quickSortHelper(arr, low, high)] with [0 <= low] and
    [high < arr.length] leaves [low..high] ascending, moves nothing outside
    [low..high], leaves a permutation of the array, and only appends to the
    steps. *)
Theorem quickSortHelper_sorts_its_range (low high : Z) (s : Recorder) :
  0 <= low -> high < len (arr s) ->
  let t := quickSortHelper low high s in
  ascending_on (arr t) low high /\
  (forall k, k < low \/ high < k -> get (arr t) k = get (arr s) k) /\
  Permutation (arr s) (arr t) /\
  exists tr, steps t = steps s ++ tr.
Proof.
  intros Hlow Hh t.
  pose proof (quickSortHelper_ascending low high s Hlow Hh) as Hasc.
  pose proof (quickSortHelper_records low high s Hlow Hh) as Hrec.
  pose proof (records_within low high s _ Hlow Hh Hrec) as (_ & Hout & _).
  destruct Hrec as (tr & Etr & Htr).
  split; [exact Hasc|]. split; [exact Hout|].
  split; [exact (proj1 (trace_Permutation _ _ _ _ Htr))|].
  now exists tr.
Qed.

Lemma quickSortHelper_sorts_its_range_witness :
  let s := mkRec [9; 5; 3; 1; 0] [] in
  arr (quickSortHelper 1 3 s) = [9; 1; 3; 5; 0] /\
  ascending_on (arr (quickSortHelper 1 3 s)) 1 3.
Proof.
  intros s. split; [reflexivity|].
  apply (quickSortHelper_sorts_its_range 1 3 s); simpl; unfold len; simpl; lia.
Defined.

(** X3.  After [k] passes of the outer loop of [bubbleSort] the working
    copy is a permutation of the input whose last [k] positions already
    hold what the ascending sort holds there; the remaining passes do not
    touch them. *)
Theorem passes_settle_the_tail (A : list Z) (k : Z) :
  0 <= k -> k <= len A - 1 ->
  let b := arr (after_passes A k) in
  Permutation A b /\
  forall q, len A - k <= q -> q < len A -> get b q = get (ascending_sort A) q.
Proof.
  intros Hk Hkn b.
  destruct (after_passes_records A k Hk) as (tr & _ & Htr). simpl in Htr.
  pose proof (proj1 (trace_Permutation _ _ _ _ Htr)) as HP.
  pose proof (trace_from_len _ _ _ _ Htr) as Hlen.
  pose proof (after_passes_settled A k Hk Hkn) as Hs.
  fold b in HP, Hlen, Hs. split; [exact HP|].
  intros q Hq1 Hq2. simpl in Hlen. rewrite <- Hlen in Hs.
  apply (settled_tail_final A b k HP); [lia | exact Hs | lia].
Qed.

Lemma passes_settle_the_tail_witness :
  arr (after_passes [5; 3; 1; 4; 2] 2) = [1; 3; 2; 4; 5] /\
  get (arr (after_passes [5; 3; 1; 4; 2] 2)) 3 = get (ascending_sort [5; 3; 1; 4; 2]) 3.
Proof.
  split; [reflexivity|].
  apply (passes_settle_the_tail [5; 3; 1; 4; 2] 2); unfold len; simpl; lia.
Defined.

(** X4.  [bubbleSort] swaps a pair only when it has just compared it and
    found it inverted: a swap step of [(p, q)] shows [array[p] > array[q]]
    and comes right after the comparison step of [(p, q)] on the same array;
    a comparison step whose pair is inverted is followed by its swap step,
    and one whose pair is in order is not followed by a swap. *)
Theorem bubbleSort_swaps_what_it_compared (A : list Z) :
  swaps_are_justified (bubbleSort A) /\ comparisons_are_acted_on (bubbleSort A).
Proof.
  split.
  - exact (bubble_trace_swaps_justified _ _ _ (bubbleSort_bubble_trace A)).
  - exact (bubble_trace_comparisons_acted_on _ _ _ (bubbleSort_bubble_trace A)).
Qed.

(** X5.  The arrays of a sequence are those a renderer computes from the
    input and the [swapping] fields alone: the first step shows the input,
    and each step shows the array of the step before it, with the two
    entries exchanged that the step before it named in [swapping]. *)
Theorem arrays_replay_from_swaps (A : list Z) :
  map array (bubbleSort A) = arrays_from A (map swapping (bubbleSort A)) /\
  map array (quickSort A) = arrays_from A (map swapping (quickSort A)).
Proof.
  split.
  - exact (trace_arrays_from _ _ _ _ (bubbleSort_trace A)).
  - exact (trace_arrays_from _ _ _ _ (quickSort_trace A)).
Qed.



(** X7.  With [n] the length of [A], [quickSort A] makes at most [n(n-1)/2]
    comparisons, at most [n - 1] swaps more than comparisons, and so returns
    at most [3n(n-1)/2 + 2(n-1)] steps (none for [n <= 1]); each comparison
    is one step and each swap two. *)
Theorem quickSort_step_bounds (A : list Z) :
  let n := len A in
  let total := step_count (quickSort A) in
  let cmp := count_frames is_comparing (quickSort A) in
  let swp := count_frames is_swapping (quickSort A) in
  total = cmp + 2 * swp /\
  0 <= cmp <= n * (n - 1) / 2 /\
  0 <= swp <= cmp + Z.max 0 (n - 1) /\
  total <= 3 * (n * (n - 1) / 2) + 2 * Z.max 0 (n - 1).
Proof.
  intros n total cmp swp.
  pose proof (quickSortHelper_frames 0 (len A - 1) (mkRec A [])) as H.
  unfold quick_tally, frames_since in H. simpl in H.
  change (steps (quickSortHelper 0 (len A - 1) (mkRec A []))) with (quickSort A) in H.
  unfold step_count at 2 in H. unfold count_frames at 2 4 in H. simpl in H.
  rewrite !Z.sub_0_r in H. fold n total cmp swp in H.
  assert (Hn : 0 <= n) by apply len_nonneg.
  replace (Z.max 0 (n - 1 + 1)) with n in H by lia.
  destruct H as (Hc0 & Hc & Hs & Ht).
  assert (Hhalf : cmp <= n * (n - 1) / 2).
  { apply Z.div_le_lower_bound; lia. }
  replace (Z.max 0 (n - 1)) with (Z.max 0 (n - 1)) in Hs by reflexivity.
  repeat split; lia.
Qed.

(** X8.  On the heap, every step a recorder returns refers to an array
    object of its own: no two steps share one, none of them existed before
    the call (so none is the input array), and all are alive in the heap the
    call leaves. *)
Theorem steps_own_their_copies (h : Heap.heap) (inputArray : Heap.loc) :
  steps_own_their_arrays h (Heap.bubbleSort h inputArray) /\
  steps_own_their_arrays h (Heap.quickSort h inputArray).
Proof.
  split; [apply heap_bubbleSort_owns | apply heap_quickSort_owns].
Qed.

(** ** The component *)

Section ComponentProperties.

Import SortingVisualizer.

(** X9.  In every state the component can reach, the steps it holds were
    recorded from the array it holds: there are none while the array is
    empty, and once the steps effect has run they are the steps of the
    selected algorithm. *)
Theorem steps_belong_to_the_array (c : Component) :
  reachable c ->
  let s := state c in
  (sortSteps s = [] \/ exists a, sortSteps s = recorder_of a (array s)) /\
  (array s = [] -> sortSteps s = []) /\
  (stepsStale c = false -> array s <> [] ->
   sortSteps s = recorder_of (algorithm s) (array s)).
Proof. intros Hc. exact (reachable_steps_belong c Hc). Qed.

Lemma steps_belong_to_the_array_witness :
  sortSteps (state (shown 1)) = recorder_of bubble [5; 3; 1; 4; 2].
Proof.
  apply (proj2 (proj2 (steps_belong_to_the_array (shown 1) (proj1 (proj2 shown_reachable)))));
    [reflexivity | discriminate].
Defined.

(** X10.  In every state the component can reach, [arraySize] is between 5
    and 100, and once the reset effect has run the array has [arraySize]
    elements, each between 1 and 100. *)
Theorem array_matches_the_size (c : Component) :
  reachable c ->
  let s := state c in
  5 <= arraySize s <= 100 /\
  (resetStale c = false ->
   length (array s) = Z.to_nat (arraySize s) /\ Forall (fun v => 1 <= v <= 100) (array s)).
Proof. intros Hc. exact (reachable_array_fits_size c Hc). Qed.

Lemma array_matches_the_size_witness :
  length (array (state (shown 23))) = Z.to_nat 5 /\
  Forall (fun v => 1 <= v <= 100) (array (state (shown 23))).
Proof.
  apply (proj2 (array_matches_the_size (shown 23) (proj2 (proj2 shown_reachable)))).
  reflexivity.
Defined.

(** X11.  In every state the component can reach, the view does not fault
    and shows a permutation of the array in the state; at the last step of
    a sequence it shows that array in ascending order. *)
Theorem view_shows_the_array (c : Component) :
  reachable c ->
  let s := state c in
  (exists v, currentArray s = Value v /\ Permutation (array s) v) /\
  (sortSteps s <> [] -> currentStep s = length_of (sortSteps s) - 1 ->
   currentArray s = Value (ascending_sort (array s))).
Proof.
  intros Hc s. pose proof (reachable_steps_belong c Hc) as Hb. split.
  - now apply view_permutes_array.
  - now apply view_at_end_sorted.
Qed.

Lemma view_shows_the_array_witness :
  currentArray (state (shown 23)) = Value (ascending_sort [5; 3; 1; 4; 2]).
Proof.
  apply (proj2 (view_shows_the_array (shown 23) (proj2 (proj2 shown_reachable))));
    [vm_compute; discriminate | vm_compute; reflexivity].
Defined.

(** X12.  While a step of a reachable state is shown, [getBarColor] does not
    fault; a bar is red exactly when it is one of the two swapped positions
    of the step, yellow exactly when it is one of the two compared
    positions, and every bar that is not blue is a bar of the array. *)
Theorem bars_show_the_step (c : Component) (index : Z) :
  reachable c ->
  0 <= currentStep (state c) <= length_of (sortSteps (state c)) - 1 ->
  exists st col,
    sortSteps (state c) !! Z.to_nat (currentStep (state c)) = Some st /\
    getBarColor (state c) index = Value col /\
    (col = bg_red_500 <->
       exists p q, step_swapping st = Some (p, q) /\ (index = p \/ index = q)) /\
    (col = bg_yellow_400 <->
       exists p q, step_comparing st = Some (p, q) /\ (index = p \/ index = q)) /\
    (col <> bg_blue_500 -> 0 <= index < len (array (state c))).
Proof.
  intros Hc Hin. apply bar_colour_of_step; [now apply reachable_steps_belong | exact Hin].
Qed.

Lemma bars_show_the_step_witness :
  exists st col,
    sortSteps (state (shown 1)) !! Z.to_nat (currentStep (state (shown 1))) = Some st /\
    getBarColor (state (shown 1)) 0 = Value col /\
    (col = bg_red_500 <->
       exists p q, step_swapping st = Some (p, q) /\ (0 = p \/ 0 = q)) /\
    (col = bg_yellow_400 <->
       exists p q, step_comparing st = Some (p, q) /\ (0 = p \/ 0 = q)) /\
    (col <> bg_blue_500 -> 0 <= 0 < len (array (state (shown 1)))).
Proof.
  apply (bars_show_the_step (shown 1) 0 (proj1 (proj2 shown_reachable))).
  vm_compute. split; discriminate.
Defined.

(** X13.  From a reachable state that is paused and has steps, a click on
    Play followed by the timer firing plays to the end: playback starts at
    the current step, or at -1 when the last step is shown; after one
    firing per remaining step the last step is shown and the effect has
    stopped the playback, with the array and the steps as they were. *)
Theorem play_reaches_the_last_step (c : Component) (r : list Z) :
  reachable c -> settled c -> isPlaying (state c) = false ->
  sortSteps (state c) <> [] ->
  generateRandomArray (arraySize (state c)) 100 r ->
  let s := state c in
  let last_index := length_of (sortSteps s) - 1 in
  let k := Z.to_nat (last_index - play_start s) in
  let c' := mkComponent (at_step s last_index false) false false false in
  (1 <= k)%nat /\
  run (Do ClickPlay :: Effects r :: ticks k r) c = Some c' /\
  reachable c' /\ settled c'.
Proof.
  intros Hc Hs Hp Hne Hr s last_index k c'.
  pose proof (reachable_in_bounds c Hc) as Hb. unfold index_in_bounds in Hb.
  destruct (play_runs_to_the_end c r Hs Hp Hne (proj1 Hb) Hr) as [Hk Hrun].
  fold s last_index k c' in Hk, Hrun.
  split; [exact Hk|]. split; [exact Hrun|]. split.
  - exact (run_reachable _ _ _ Hc Hrun).
  - apply settledb_spec. unfold c', at_step. now rewrite settledb_paused.
Qed.

Lemma play_reaches_the_last_step_witness :
  run (Do ClickPlay :: Effects [5; 3; 1; 4; 2] :: ticks 22 [5; 3; 1; 4; 2]) (shown 1) =
    Some (shown 23).
Proof.
  assert (Hne : sortSteps (state (shown 1)) <> []) by (vm_compute; discriminate).
  assert (Hr : generateRandomArray (arraySize (state (shown 1))) 100 [5; 3; 1; 4; 2])
    by (split; [reflexivity | repeat constructor; lia]).
  destruct (play_reaches_the_last_step (shown 1) [5; 3; 1; 4; 2]
              (proj1 (proj2 shown_reachable)) (shown_settled 1) eq_refl Hne Hr)
    as (_ & Hrun & _).
  vm_compute in Hrun. vm_compute. exact Hrun.
Defined.



(** X15.  From a settled reachable state, playing or not, Generate New
    Array, or the size slider moved to another size, ends (after one, or
    two, rounds of effects) in the settled state of a fresh array: the new
    array, the steps of the selected algorithm for it, index -1, not
    playing and no timer pending. *)
Theorem new_array_starts_afresh (c : Component) (newArray : list Z) :
  reachable c -> settled c ->
  (generateRandomArray (arraySize (state c)) 100 newArray ->
   run [Do (ClickGenerate newArray); Effects newArray] c =
     Some (fresh_component (state c) newArray (arraySize (state c)))) /\
  (forall n, 5 <= n <= 100 -> n <> arraySize (state c) ->
   generateRandomArray n 100 newArray ->
   run [Do (SlideSize n); Effects newArray; Effects newArray] c =
     Some (fresh_component (state c) newArray n)).
Proof.
  intros Hc Hs. pose proof (reachable_array_fits_size c Hc) as [Hsz _]. split.
  - intros Hnew. apply generate_regenerates; auto. lia.
  - intros n Hn Hdiff Hnew. now apply resize_regenerates.
Qed.

Lemma new_array_starts_afresh_witness :
  run [Do (ClickGenerate [2; 9; 4; 7; 1]); Effects [2; 9; 4; 7; 1]] (shown 1) =
    Some (fresh_component (state (shown 1)) [2; 9; 4; 7; 1] 5) /\
  run [Do (SlideSize 6); Effects [2; 9; 4; 7; 1; 3]; Effects [2; 9; 4; 7; 1; 3]] (shown 1) =
    Some (fresh_component (state (shown 1)) [2; 9; 4; 7; 1; 3] 6).
Proof.
  split.
  - apply (proj1 (new_array_starts_afresh (shown 1) [2; 9; 4; 7; 1]
                    (proj1 (proj2 shown_reachable)) (shown_settled 1))).
    split; [reflexivity | repeat constructor; lia].
  - apply (proj2 (new_array_starts_afresh (shown 1) [2; 9; 4; 7; 1; 3]
                    (proj1 (proj2 shown_reachable)) (shown_settled 1)) 6).
    + lia.
    + simpl. lia.
    + split; [reflexivity | repeat constructor; lia].
Defined.

(** X16.  From a settled reachable state, selecting the other algorithm
    ends after one round of effects in a settled state with the same array,
    the steps of the new algorithm and index -1; [isPlaying] is left as it
    was, so a playback in progress goes on, from the start of the new
    steps. *)
Theorem switching_algorithm_keeps_playing (c : Component) (a : AlgorithmType) (r : list Z) :
  reachable c -> settled c -> a <> algorithm (state c) ->
  generateRandomArray (arraySize (state c)) 100 r ->
  run [Do (SelectAlgorithm a); Effects r] c = Some (switched_component c a) /\
  settled (switched_component c a).
Proof.
  intros Hc Hs Ha Hr.
  destruct (reachable_array_fits_size c Hc) as [Hsz Harr].
  destruct Hs as (Hst & Hrs & Hrest). destruct (Harr Hrs) as [Hlen _].
  apply switch_regenerates; auto.
  - split; [exact Hst | split; [exact Hrs | exact Hrest]].
  - unfold len. lia.
Qed.

Lemma switching_algorithm_keeps_playing_witness :
  run [Do (SelectAlgorithm quick); Effects [5; 3; 1; 4; 2]] (shown 1) =
    Some (switched_component (shown 1) quick).
Proof.
  apply (switching_algorithm_keeps_playing (shown 1) quick [5; 3; 1; 4; 2]
           (proj1 (proj2 shown_reachable)) (shown_settled 1)).
  - discriminate.
  - split; [reflexivity | repeat constructor; lia].
Defined.

(** X17.  In a reachable state whose steps effect has run, the tutorial text
    never interpolates an undefined value, and the sentence shown for a
    swap of bubble sort is true: the element it calls greater is greater.
    The text is empty exactly when [currentStep] is negative or past the
    last step. *)
Theorem tutorial_text_is_sound (c : Component) :
  reachable c -> stepsStale c = false ->
  Tutorial.all_defined (Tutorial.getStepExplanation (state c)) /\
  Tutorial.greater_as_said (Tutorial.getStepExplanation (state c)) /\
  (Tutorial.getStepExplanation (state c) = Tutorial.NoExplanation <->
   (currentStep (state c) < 0 \/
    length_of (sortSteps (state c)) <= currentStep (state c))).
Proof.
  intros Hc Hfresh.
  destruct (explanation_of_recorded_step c (reachable_steps_belong c Hc) Hfresh) as [H1 H2].
  split; [exact H1|]. split; [exact H2|]. apply explanation_empty_iff.
Qed.

Lemma tutorial_text_is_sound_witness :
  Tutorial.getStepExplanation (state (shown 1)) =
    Tutorial.BubbleSwapping 0 (Some 5) 1 (Some 3) /\
  Tutorial.greater_as_said (Tutorial.getStepExplanation (state (shown 1))).
Proof.
  split; [reflexivity|].
  apply (tutorial_text_is_sound (shown 1) (proj1 (proj2 shown_reachable))). reflexivity.
Defined.

(** X18.  A settled reachable state that is playing has a step left to
    show.  From it, Pause and the effects after it lead to the settled state
    with the same step, not playing and no timer pending, which shows the
    same array; Play and the effects after it lead back to the state the
    playback was paused in. *)
Theorem pause_keeps_the_place (c : Component) (r : list Z) :
  reachable c -> settled c -> isPlaying (state c) = true ->
  generateRandomArray (arraySize (state c)) 100 r ->
  let s := state c in
  let paused := mkComponent (at_step s (currentStep s) false) false false false in
  currentStep s < length_of (sortSteps s) - 1 /\
  run [Do ClickPause; Effects r] c = Some paused /\
  reachable paused /\ settled paused /\
  currentArray (state paused) = currentArray s /\
  run [Do ClickPlay; Effects r] paused = Some c.
Proof.
  intros Hc Hs Hp Hr s paused.
  destruct (settled_playing c Hs Hp) as [Hlt _].
  destruct (pause_then_play c r Hs Hp Hr) as [Hpause Hplay].
  fold s paused in Hpause, Hplay.
  split; [exact Hlt|]. split; [exact Hpause|]. split; [|split; [|split]].
  - exact (run_reachable _ _ _ Hc Hpause).
  - apply settledb_spec. unfold paused, at_step. now rewrite settledb_paused.
  - reflexivity.
  - exact Hplay.
Qed.

Lemma pause_keeps_the_place_witness :
  let c := mkComponent
             (mkState [5; 3; 1; 4; 2] (bubbleSort [5; 3; 1; 4; 2]) 1 bubble 50 true 5)
             true false false in
  run [Do ClickPause; Effects [5; 3; 1; 4; 2]] c = Some (shown 1) /\
  run [Do ClickPlay; Effects [5; 3; 1; 4; 2]] (shown 1) = Some c.
Proof.
  intros c.
  assert (Hc : reachable c).
  { apply (run_reachable [Do ClickPlay; Effects [5; 3; 1; 4; 2]] (shown 1));
      [apply shown_reachable | vm_compute; reflexivity]. }
  assert (Hs : settled c) by (apply settledb_spec; vm_compute; reflexivity).
  assert (Hr : generateRandomArray (arraySize (state c)) 100 [5; 3; 1; 4; 2])
    by (split; [reflexivity | repeat constructor; lia]).
  destruct (pause_keeps_the_place c [5; 3; 1; 4; 2] Hc Hs eq_refl Hr)
    as (_ & Hpause & _ & _ & _ & Hplay).
  vm_compute in Hpause, Hplay. vm_compute. split; [exact Hpause | exact Hplay].
Defined.

End ComponentProperties.
